(** * Foundation Design Tool (app.py): formula library, width-list parser and
      Monte Carlo reliability loop, embedded with Python's numeric semantics.

    Python [float] is IEEE-754 binary64 and is modelled by Rocq's primitive
    floats; Python [int] is [Z].  Operations that raise in Python return
    [Raise] here.  Calls into the C math library ([exp], [tan], [pow]) and
    the generator behind [random.Random] are parameters of the sections that
    use them; a Mersenne Twister instance is given for closed evaluations. *)

From Stdlib Require Import ZArith List Bool String Ascii Lia Floats.
Import ListNotations.

Set Warnings "-inexact-float".

Local Open Scope Z_scope.

(* ================================================================== *)
(** * Python runtime values and arithmetic                              *)
(* ================================================================== *)

Module Py.

(** Exceptions the modelled code can raise. *)
Inductive exn : Type :=
| ZeroDivisionError
| OverflowError
| ValueError.

Inductive result (A : Type) : Type :=
| Ok (a : A)
| Raise (e : exn).

Arguments Ok {A} a.
Arguments Raise {A} e.

Definition bind {A B : Type} (r : result A) (k : A -> result B) : result B :=
  match r with
  | Ok a => k a
  | Raise e => Raise e
  end.

Definition is_ok {A : Type} (r : result A) : bool :=
  match r with
  | Ok _ => true
  | Raise _ => false
  end.

(** Numbers as the program handles them: [int] literals such as [999], [1]
    and [0] stay integers until an operation mixes them with a float. *)
Inductive num : Type :=
| Int (z : Z)
| Flt (f : float).

(** Magnitudes from [2^1024 - 2^970] on round to infinity in binary64. *)
Definition overflow_bound : Z := 2 ^ 1024 - 2 ^ 970.

(** Correctly rounded (nearest, ties to even) quotient [n / d] for [0 <= n],
    [0 < d], with the sign given apart.  The quotient is cut after at least
    64 significant bits with a sticky bit, then rounded once. *)
Definition round_ratio (neg : bool) (n d : Z) : float :=
  if n =? 0 then (if neg then neg_zero else zero)
  else
    let k := Z.max 0 (64 + Z.log2 d - Z.log2 n) in
    let q := (n * 2 ^ k) / d in
    let sticky := if (n * 2 ^ k) mod d =? 0 then 0 else 1 in
    let m := 2 * q + sticky in
    SF2Prim (binary_normalize prec emax (if neg then - m else m) (- (k + 1)) false).

(** [float(z)] for an int: [PyLong_AsDouble]. *)
Definition int_to_float (z : Z) : result float :=
  if overflow_bound <=? Z.abs z then Raise OverflowError
  else Ok (round_ratio (z <? 0) (Z.abs z) 1).

(** [a / b] on two ints: [long_true_divide]. *)
Definition int_truediv (a b : Z) : result float :=
  if b =? 0 then Raise ZeroDivisionError
  else if overflow_bound * Z.abs b <=? Z.abs a then Raise OverflowError
  else Ok (round_ratio (xorb (a <? 0) (b <? 0)) (Z.abs a) (Z.abs b)).

Definition to_float (x : num) : result float :=
  match x with
  | Int z => int_to_float z
  | Flt f => Ok f
  end.

(** Binary operators.  Two ints stay in [int]; otherwise both operands are
    converted to float (left first) and the IEEE operation is applied.
    Float [+], [-], [*] never raise; [/] raises on a zero divisor. *)
Definition float_binop (op : float -> float -> float) (a b : num) : result num :=
  bind (to_float a) (fun x => bind (to_float b) (fun y => Ok (Flt (op x y)))).

Definition add (a b : num) : result num :=
  match a, b with
  | Int x, Int y => Ok (Int (x + y))
  | _, _ => float_binop PrimFloat.add a b
  end.

Definition sub (a b : num) : result num :=
  match a, b with
  | Int x, Int y => Ok (Int (x - y))
  | _, _ => float_binop PrimFloat.sub a b
  end.

Definition mul (a b : num) : result num :=
  match a, b with
  | Int x, Int y => Ok (Int (x * y))
  | _, _ => float_binop PrimFloat.mul a b
  end.

Definition truediv (a b : num) : result num :=
  match a, b with
  | Int x, Int y => bind (int_truediv x y) (fun f => Ok (Flt f))
  | _, _ =>
      bind (to_float a) (fun x =>
      bind (to_float b) (fun y =>
      if PrimFloat.eqb y zero then Raise ZeroDivisionError
      else Ok (Flt (PrimFloat.div x y))))
  end.

(** Comparison.  Float against float is the IEEE comparison; int against
    float compares the exact values (no rounding of the int). *)
Definition cmp_int_float (z : Z) (f : float) : option comparison :=
  match Prim2SF f with
  | S754_nan => None
  | S754_zero _ => Some (z ?= 0)
  | S754_infinity s => Some (if s then Gt else Lt)
  | S754_finite s m e =>
      let v := if s then Zneg m else Zpos m in
      if 0 <=? e then Some (z ?= v * 2 ^ e)
      else Some (z * 2 ^ (- e) ?= v)
  end.

Definition cmp (a b : num) : option comparison :=
  match a, b with
  | Int x, Int y => Some (x ?= y)
  | Int x, Flt g => cmp_int_float x g
  | Flt f, Int y => option_map CompOpp (cmp_int_float y f)
  | Flt f, Flt g =>
      match PrimFloat.compare f g with
      | FEq => Some Eq
      | FLt => Some Lt
      | FGt => Some Gt
      | FNotComparable => None
      end
  end.

Definition ge (a b : num) : bool :=
  match cmp a b with Some Gt | Some Eq => true | _ => false end.

Definition le (a b : num) : bool :=
  match cmp a b with Some Lt | Some Eq => true | _ => false end.

Definition gt (a b : num) : bool :=
  match cmp a b with Some Gt => true | _ => false end.

Definition ne (a b : num) : bool :=
  match cmp a b with Some Eq => false | _ => true end.

End Py.

Import Py.

Declare Scope py_scope.
Delimit Scope py_scope with py.
Notation "x <- r ;; k" := (Py.bind r (fun x => k))
  (at level 61, r at next level, right associativity) : py_scope.
Local Open Scope py_scope.

(* ================================================================== *)
(** * The [math] module and [float.__pow__]                             *)
(* ================================================================== *)

(** The three C library functions the program reaches: [exp] and [tan]
    through [math.exp] and [math.tan], [pow] through [x ** 2] on a float.
    Only their result value is modelled; [errno] is read off the result the
    way CPython's wrappers do for an infinite or NaN result. *)
Record libm : Type := {
  c_exp : float -> float;
  c_tan : float -> float;
  c_pow : float -> float -> float
}.

(** A C library on which every call fails (NaN result, so the wrappers
    raise).  A closed evaluation that returns a value under it made no call
    into the C library. *)
Definition libm_failing : libm :=
  {| c_exp := fun _ => nan; c_tan := fun _ => nan; c_pow := fun _ _ => nan |}.

Section Math.

Variable lm : libm.

(** [math_1] of mathmodule.c: one-argument wrapper. *)
Definition math_1 (f : float -> float) (can_overflow : bool) (x : num) : result num :=
  x' <- to_float x ;;
  let r := f x' in
  if is_nan r && negb (is_nan x') then Raise ValueError
  else if is_infinity r && is_finite x' then
    Raise (if can_overflow then OverflowError else ValueError)
  else Ok (Flt r).

Definition math_exp : num -> result num := math_1 (c_exp lm) true.
Definition math_tan : num -> result num := math_1 (c_tan lm) false.

Definition math_pi : num := Flt 3.141592653589793.

(** [math.radians(x)] is [x * (pi / 180.0)] in binary64. *)
Definition math_radians (x : num) : result num :=
  x' <- to_float x ;;
  Ok (Flt (x' * (3.141592653589793 / 180))%float).

(** [x ** 2].  On an int the square is exact.  On a float, [float_pow]
    answers the special cases itself (NaN, infinity, zero, a base of
    magnitude one) and calls C [pow] on the magnitude otherwise; an infinite
    result is [OverflowError]. *)
Definition pow2 (x : num) : result num :=
  match x with
  | Int z => Ok (Int (z * z))
  | Flt iv =>
      if is_nan iv then Ok (Flt iv)
      else if is_infinity iv then Ok (Flt infinity)
      else if PrimFloat.eqb iv zero then Ok (Flt zero)
      else
        let iv' := if PrimFloat.ltb iv zero then PrimFloat.opp iv else iv in
        if PrimFloat.eqb iv' one then Ok (Flt one)
        else
          let ix := c_pow lm iv' two in
          if is_infinity ix then Raise OverflowError
          else if is_nan ix then Raise ValueError
          else Ok (Flt ix)
  end.

(* ================================================================== *)
(** * CONFIG (app.py lines 10-13)                                       *)
(* ================================================================== *)

Definition default_FS_bearing : num := Flt 3.0.
Definition FS_slide_req : num := Flt 1.5.
Definition FS_ot_req : num := Flt 2.0.
Definition settle_limit : num := Flt 25.0.

(* ================================================================== *)
(** * HELPER FUNCTIONS (app.py lines 19-50)                             *)
(* ================================================================== *)

(** Terzaghi bearing capacity factors for a friction angle in degrees:
    the [if phi > 0] of [bearing_capacity_q_ult]. *)
Definition bearing_factors (phi phi_rad : num) : result (num * num) :=
  if gt phi (Int 0) then
    t <- math_tan phi_rad ;;
    a <- mul math_pi t ;;
    e <- math_exp a ;;
    h <- truediv phi (Int 2) ;;
    s <- add (Int 45) h ;;
    r <- math_radians s ;;
    t2 <- math_tan r ;;
    p <- pow2 t2 ;;
    Nq <- mul e p ;;
    n1 <- add Nq (Int 1) ;;
    n2 <- mul (Int 2) n1 ;;
    t3 <- math_tan phi_rad ;;
    Ngamma <- mul n2 t3 ;;
    Ok (Nq, Ngamma)
  else Ok (Int 1, Int 0).

Definition bearing_capacity_q_ult (c gamma Df B phi : num) : result num :=
  phi_rad <- math_radians phi ;;
  let Nc := Flt 5.14 in
  NN <- bearing_factors phi phi_rad ;;
  let '(Nq, Ngamma) := NN in
  t1 <- mul c Nc ;;
  t2 <- mul gamma Df ;;
  t3 <- mul t2 Nq ;;
  s1 <- add t1 t3 ;;
  t4 <- mul (Flt 0.5) gamma ;;
  t5 <- mul t4 B ;;
  t6 <- mul t5 Ngamma ;;
  add s1 t6.

Definition sliding_fs (P H mu : num) : result num :=
  if ne H (Int 0) then (t <- mul P mu ;; truediv t H)
  else Ok (Int 999).

Definition overturning_fs (P B M : num) : result num :=
  h <- truediv B (Int 2) ;;
  MR <- mul P h ;;
  let MO := M in
  if ne MO (Int 0) then truediv MR MO
  else Ok (Int 999).

Definition settlement_elastic (P B L Es nu influence_I : num) : result num :=
  A <- mul B L ;;
  q <- truediv P A ;;
  t1 <- mul influence_I q ;;
  t2 <- mul t1 B ;;
  n2 <- pow2 nu ;;
  o <- sub (Int 1) n2 ;;
  t3 <- mul t2 o ;;
  truediv t3 Es.

End Math.

(* ================================================================== *)
(** * Text: [str.split], [str.strip] and [float(str)]                   *)
(* ================================================================== *)

(** Text is modelled over the code points U+0000..U+00FF, one [ascii] per
    code point. *)
Module Text.

Definition code (c : ascii) : Z := Z.of_N (N_of_ascii c).

(** [text.split(sep)] for a one-character separator: never empty. *)
Fixpoint split_on (sep : ascii) (s : string) : list string :=
  match s with
  | EmptyString => [EmptyString]
  | String c s' =>
      if Ascii.eqb c sep then EmptyString :: split_on sep s'
      else
        match split_on sep s' with
        | x :: xs => String c x :: xs
        | [] => [String c EmptyString]
        end
  end.

(** Whitespace as [str.strip()] sees it in this range: TAB..CR, FS..US,
    SPACE, NEL and NBSP. *)
Definition is_space (c : ascii) : bool :=
  let n := code c in
  ((9 <=? n) && (n <=? 13)) || ((28 <=? n) && (n <=? 32))
  || (n =? 133) || (n =? 160).

(** Whitespace as [float(str)] drops it at both ends: the C locale's
    TAB..CR and SPACE, and the non-ASCII spaces NEL and NBSP (translated to
    a space first); FS..US are left in place. *)
Definition is_float_space (c : ascii) : bool :=
  let n := code c in
  ((9 <=? n) && (n <=? 13)) || (n =? 32) || (n =? 133) || (n =? 160).

Fixpoint lstrip_by (p : ascii -> bool) (s : string) : string :=
  match s with
  | String c s' => if p c then lstrip_by p s' else s
  | EmptyString => EmptyString
  end.

Fixpoint rstrip_by (p : ascii -> bool) (s : string) : string :=
  match s with
  | EmptyString => EmptyString
  | String c s' =>
      match rstrip_by p s' with
      | EmptyString => if p c then EmptyString else String c EmptyString
      | r => String c r
      end
  end.

(** [s.strip()]. *)
Definition strip (s : string) : string := rstrip_by is_space (lstrip_by is_space s).

Definition is_digit (c : ascii) : bool :=
  (48 <=? code c) && (code c <=? 57).

Definition to_lower (c : ascii) : ascii :=
  if (65 <=? code c) && (code c <=? 90)
  then ascii_of_N (N_of_ascii c + 32) else c.

Fixpoint contains (x : ascii) (s : string) : bool :=
  match s with
  | EmptyString => false
  | String c s' => Ascii.eqb c x || contains x s'
  end.

(** Digit-group underscores: allowed only between two digits; they are
    removed before the number is read. *)
Fixpoint drop_underscores (prev : ascii) (s : string) : option string :=
  match s with
  | EmptyString => if Ascii.eqb prev "_"%char then None else Some EmptyString
  | String c s' =>
      if Ascii.eqb c "_"%char then
        (if is_digit prev then drop_underscores c s' else None)
      else if Ascii.eqb prev "_"%char && negb (is_digit c) then None
      else option_map (String c) (drop_underscores c s')
  end.

(** A run of decimal digits: accumulated value, number of digits, rest. *)
Fixpoint take_digits (s : string) (acc n : Z) : Z * Z * string :=
  match s with
  | String c s' =>
      if is_digit c then take_digits s' (10 * acc + (code c - 48)) (n + 1)
      else (acc, n, s)
  | EmptyString => (acc, n, s)
  end.

Definition take_sign (s : string) : bool * string :=
  match s with
  | String "-"%char r => (true, r)
  | String "+"%char r => (false, r)
  | _ => (false, s)
  end.

(** The decimal grammar of [strtod] after the sign: digits, an optional
    point and more digits (one digit at least in all), and an exponent that
    is taken only when it has a digit.  Result: digit string as an integer
    [D], decimal exponent [E] (the value is [D * 10^E]) and the rest. *)
Definition scan_decimal (s : string) : option (Z * Z * string) :=
  let '(ip, ni, r1) := take_digits s 0 0 in
  let '(D, nf, r2) :=
    match r1 with
    | String "."%char r => take_digits r ip 0
    | _ => (ip, 0, r1)
    end in
  if ni + nf =? 0 then None
  else
    match r2 with
    | String c r3 =>
        if Ascii.eqb (to_lower c) "e"%char then
          let '(esign, r4) := take_sign r3 in
          let '(ev, ne, r5) := take_digits r4 0 0 in
          if ne =? 0 then Some (D, - nf, r2)
          else Some (D, (if esign then - ev else ev) - nf, r5)
        else Some (D, - nf, r2)
    | EmptyString => Some (D, - nf, r2)
    end.

(** [D * 10^E] rounded to the nearest binary64 (overflow gives infinity). *)
Definition decimal_to_float (neg : bool) (D E : Z) : float :=
  if 0 <=? E then round_ratio neg (D * 10 ^ E) 1
  else round_ratio neg D (10 ^ (- E)).

(** Case-insensitive prefix match against a lower-case word. *)
Fixpoint match_word (w s : string) : option string :=
  match w with
  | EmptyString => Some s
  | String a w' =>
      match s with
      | String c s' => if Ascii.eqb (to_lower c) a then match_word w' s' else None
      | EmptyString => None
      end
  end.

(** [inf], [infinity] and [nan], any case, after an optional sign. *)
Definition scan_inf_nan (s : string) : option (float * string) :=
  let '(neg, r) := take_sign s in
  match match_word "inf" r with
  | Some r1 =>
      let r2 := match match_word "inity" r1 with Some r' => r' | None => r1 end in
      Some (if neg then neg_infinity else infinity, r2)
  | None =>
      match match_word "nan" r with
      | Some r1 => Some (nan, r1)
      | None => None
      end
  end.

(** The whole text must be one number. *)
Definition string_to_double (s : string) : result float :=
  let '(neg, r) := take_sign s in
  match scan_decimal r with
  | Some (D, E, EmptyString) => Ok (decimal_to_float neg D E)
  | Some (_, _, String _ _) => Raise ValueError
  | None =>
      match scan_inf_nan s with
      | Some (f, EmptyString) => Ok f
      | _ => Raise ValueError
      end
  end.

(** [float(s)] on text: surrounding whitespace is dropped, underscores are
    checked and removed, and the rest is read as one number; anything else
    is [ValueError]. *)
Definition py_float (s : string) : result float :=
  let t := rstrip_by is_float_space (lstrip_by is_float_space s) in
  if contains "_"%char t then
    match drop_underscores Ascii.zero t with
    | Some u => string_to_double u
    | None => Raise ValueError
    end
  else string_to_double t.

End Text.

(** [safe_float_list] (app.py lines 53-63): the loop body appends to one of
    the two lists; the bare [except] catches the [ValueError] of [float]. *)
Definition safe_float_step (acc : list float * list string) (x : string)
  : list float * list string :=
  let '(numbers, bad) := acc in
  match Text.py_float (Text.strip x) with
  | Ok f => (numbers ++ [f], bad)
  | Raise _ => (numbers, bad ++ [Text.strip x])
  end.

Definition safe_float_list (text : string) : list float * list string :=
  let parts := Text.split_on ","%char text in
  fold_left safe_float_step parts ([], []).

(* ================================================================== *)
(** * [random.Random]: the Mersenne Twister behind [rng.uniform]        *)
(* ================================================================== *)

Module MT19937.

Definition N : nat := 624.
Definition M : nat := 397.

Definition w32 (x : Z) : Z := x mod 4294967296.

Record state : Type := { mt : list Z; index : nat }.

Fixpoint upd (l : list Z) (i : nat) (v : Z) : list Z :=
  match l, i with
  | [], _ => []
  | _ :: r, O => v :: r
  | x :: r, S i' => x :: upd r i' v
  end.

Definition at_ (l : list Z) (i : nat) : Z := nth i l 0.

Definition shuffle30 (x : Z) : Z := Z.lxor x (Z.shiftr x 30).

(** [init_genrand(s)]. *)
Fixpoint init_genrand_from (prev mti : Z) (n : nat) : list Z :=
  match n with
  | O => []
  | S n' =>
      let x := w32 (1812433253 * shuffle30 prev + mti) in
      x :: init_genrand_from x (mti + 1) n'
  end.

Definition init_genrand (s : Z) : list Z :=
  let m0 := w32 s in
  m0 :: init_genrand_from m0 1 (N - 1).

Definition wrap_i (l : list Z) (i : nat) : list Z * nat :=
  if (N <=? i)%nat then (upd l 0 (at_ l (N - 1)), 1%nat) else (l, i).

(** The two mixing loops of [init_by_array]. *)
Fixpoint mix_key (k : nat) (l : list Z) (i j : nat) (key : list Z) : list Z * nat :=
  match k with
  | O => (l, i)
  | S k' =>
      let v := w32 (Z.lxor (at_ l i) (w32 (shuffle30 (at_ l (i - 1)) * 1664525))
                    + at_ key j + Z.of_nat j) in
      let '(l', i') := wrap_i (upd l i v) (S i) in
      let j' := if (List.length key <=? S j)%nat then O else S j in
      mix_key k' l' i' j' key
  end.

Fixpoint mix_index (k : nat) (l : list Z) (i : nat) : list Z :=
  match k with
  | O => l
  | S k' =>
      let v := w32 (Z.lxor (at_ l i) (w32 (shuffle30 (at_ l (i - 1)) * 1566083941))
                    - Z.of_nat i) in
      let '(l', i') := wrap_i (upd l i v) (S i) in
      mix_index k' l' i'
  end.

Definition init_by_array (key : list Z) : list Z :=
  let l0 := init_genrand 19650218 in
  let '(l1, i) := mix_key (Nat.max N (List.length key)) l0 1 0 key in
  let l2 := mix_index (N - 1) l1 i in
  upd l2 0 2147483648.

(** The seed's magnitude as 32-bit words, least significant first, one word
    at least. *)
Definition key_of_int (a : Z) : list Z :=
  let n := Z.abs a in
  let keyused := if n =? 0 then 1%nat else S (Z.to_nat (Z.log2 n / 32)) in
  map (fun i => w32 (Z.shiftr n (32 * Z.of_nat i))) (seq 0 keyused).

(** [random.Random(seed)] for an int seed. *)
Definition Random (seed : Z) : state :=
  {| mt := init_by_array (key_of_int seed); index := N |}.

(** Regeneration of the whole block, in place. *)
Fixpoint twist (k kk : nat) (l : list Z) : list Z :=
  match k with
  | O => l
  | S k' =>
      let y := Z.lor (Z.land (at_ l kk) 2147483648)
                     (Z.land (at_ l (S kk mod N)) 2147483647) in
      let mag := if Z.odd y then 2567483615 else 0 in
      let v := Z.lxor (Z.lxor (at_ l ((kk + M) mod N)) (Z.shiftr y 1)) mag in
      twist k' (S kk) (upd l kk v)
  end.

Definition temper (y0 : Z) : Z :=
  let y1 := Z.lxor y0 (Z.shiftr y0 11) in
  let y2 := Z.lxor y1 (Z.land (w32 (Z.shiftl y1 7)) 2636928640) in
  let y3 := Z.lxor y2 (Z.land (w32 (Z.shiftl y2 15)) 4022730752) in
  Z.lxor y3 (Z.shiftr y3 18).

Definition genrand_uint32 (st : state) : Z * state :=
  let '(l, i) :=
    if (N <=? index st)%nat then (twist N 0 (mt st), O) else (mt st, index st) in
  (temper (at_ l i), {| mt := l; index := S i |}).

Definition small_float (z : Z) : float := PrimFloat.of_uint63 (Uint63.of_Z z).

(** [random()]: 53 random bits scaled into [0, 1). *)
Definition random (st : state) : float * state :=
  let '(x, st1) := genrand_uint32 st in
  let '(y, st2) := genrand_uint32 st1 in
  let a := Z.shiftr x 5 in
  let b := Z.shiftr y 6 in
  ((small_float a * 67108864 + small_float b) * (1 / 9007199254740992)%float, st2)%float.

End MT19937.

(* ================================================================== *)
(** * MODE 5: FULL FOUNDATION DESIGN (MONTE CARLO), app.py lines 205-286 *)
(* ================================================================== *)

(** The sidebar inputs of mode 5 (lines 205-237).  Number inputs with float
    bounds give floats; the sliders and the seed give ints. *)
Module Sidebar.
Record t : Type := {
  L : num; Df : num;
  c : num; phi : num; gamma : num;
  P : num; H : num; M : num;
  Es : num; nu : num; mu : num; I : num;
  B_text : string; iterations : Z; seed : Z;
  g_var : num; P_var : num; Es_var : num;
  FS_bearing : num
}.


End Sidebar.

(** The random source: [Random(seed)] builds a state, [rng.random()]
    returns a float and the next state. *)
Record generator : Type := {
  rng : Type;
  Random : Z -> rng;
  rng_random : rng -> float * rng
}.

Definition mersenne_twister : generator :=
  {| rng := MT19937.state; Random := MT19937.Random; rng_random := MT19937.random |}.

(** What pressing "Run Full Foundation Design" leaves behind. *)
Inductive outcome : Type :=
| InvalidBList                              (* st.error("Invalid B list!") *)
| Stored (results : list (num * num))       (* st.session_state.mc = results *)
| Uncaught (e : exn).                       (* the exception leaves the handler *)

Section MonteCarlo.

Variable lm : libm.
Variable gen : generator.
Variable sb : Sidebar.t.

Local Abbreviation L := (Sidebar.L sb).
Local Abbreviation Df := (Sidebar.Df sb).
Local Abbreviation c := (Sidebar.c sb).
Local Abbreviation phi := (Sidebar.phi sb).
Local Abbreviation gamma := (Sidebar.gamma sb).
Local Abbreviation P := (Sidebar.P sb).
Local Abbreviation H := (Sidebar.H sb).
Local Abbreviation M := (Sidebar.M sb).
Local Abbreviation Es := (Sidebar.Es sb).
Local Abbreviation nu := (Sidebar.nu sb).
Local Abbreviation mu := (Sidebar.mu sb).
Local Abbreviation I := (Sidebar.I sb).
Local Abbreviation iterations := (Sidebar.iterations sb).
Local Abbreviation g_var := (Sidebar.g_var sb).
Local Abbreviation P_var := (Sidebar.P_var sb).
Local Abbreviation Es_var := (Sidebar.Es_var sb).
Local Abbreviation FS_bearing := (Sidebar.FS_bearing sb).

(** [rng.uniform(a, b)] is [a + (b - a) * self.random()]. *)
Definition uniform (a b : num) (g : rng gen) : result (num * rng gen) :=
  d <- sub b a ;;
  let '(u, g') := rng_random gen g in
  t <- mul d (Flt u) ;;
  r <- add a t ;;
  Ok (r, g').

(** [x * rng.uniform(1 - var / 100, 1 + var / 100)]. *)
Definition perturbed (x var : num) (g : rng gen) : result (num * rng gen) :=
  v1 <- truediv var (Int 100) ;;
  lo <- sub (Int 1) v1 ;;
  v2 <- truediv var (Int 100) ;;
  hi <- add (Int 1) v2 ;;
  ug <- uniform lo hi g ;;
  let '(u, g') := ug in
  r <- mul x u ;;
  Ok (r, g').

(** Lines 253-255: [gamma_r], [Es_r], [P_r], drawn in this order. *)
Definition sample (g : rng gen) : result (num * num * num * rng gen) :=
  r1 <- perturbed gamma g_var g ;;
  let '(gamma_r, g1) := r1 in
  r2 <- perturbed Es Es_var g1 ;;
  let '(Es_r, g2) := r2 in
  r3 <- perturbed P P_var g2 ;;
  let '(P_r, g3) := r3 in
  Ok (gamma_r, Es_r, P_r, g3).

(** Lines 257-276: the four quantities, then [passes]. *)
Definition trial_passes (B gamma_r Es_r P_r : num) : result bool :=
  q_ult <- bearing_capacity_q_ult lm c gamma_r Df B phi ;;
  q_allow <- truediv q_ult FS_bearing ;;
  A <- mul B L ;;
  q_apply <- truediv P_r A ;;
  FSs <- sliding_fs P_r H mu ;;
  FSo <- overturning_fs P_r B M ;;
  s0 <- settlement_elastic lm P_r B L Es_r nu I ;;
  s <- mul s0 (Int 1000) ;;
  Ok (ge q_allow q_apply && ge FSs FS_slide_req && ge FSo FS_ot_req
      && le s settle_limit).

(** One pass through the body of [for _ in range(iterations)]. *)
Definition trial (B : num) (g : rng gen) : result (bool * rng gen) :=
  sm <- sample g ;;
  let '(gamma_r, Es_r, P_r, g') := sm in
  passes <- trial_passes B gamma_r Es_r P_r ;;
  Ok (passes, g').

(** [for _ in range(iterations)]: [n] is the number of rounds left. *)
Fixpoint trials (n : nat) (B : num) (safe_count : Z) (g : rng gen)
  : result (Z * rng gen) :=
  match n with
  | O => Ok (safe_count, g)
  | S n' =>
      r <- trial B g ;;
      let '(passes, g') := r in
      trials n' B (if passes then safe_count + 1 else safe_count) g'
  end.

(** Line 281: [(safe_count / iterations) * 100]. *)
Definition safety_percent (safe_count : Z) : result num :=
  f <- truediv (Int safe_count) (Int iterations) ;;
  mul f (Int 100).

(** [for i, B in enumerate(B_list)]; [results] is the list built so far.
    The progress bar only displays [(i + 1) / len(B_list)] and is left out. *)
Fixpoint widths_loop (B_list : list num) (results : list (num * num)) (g : rng gen)
  : result (list (num * num) * rng gen) :=
  match B_list with
  | [] => Ok (results, g)
  | B :: rest =>
      r <- trials (Z.to_nat iterations) B 0 g ;;
      let '(safe_count, g') := r in
      pct <- safety_percent safe_count ;;
      widths_loop rest (results ++ [(B, pct)]) g'
  end.

(** The button handler: parse, reject an empty list, else seed and run. *)
Definition run_full_design : outcome :=
  let '(B_list, bad) := safe_float_list (Sidebar.B_text sb) in
  match B_list with
  | [] => InvalidBList
  | _ :: _ =>
      match widths_loop (map Flt B_list) [] (Random gen (Sidebar.seed sb)) with
      | Ok (results, _) => Stored results
      | Raise e => Uncaught e
      end
  end.

(* ------------------------------------------------------------------ *)
(** ** Vocabulary for the statements below                              *)
(* ------------------------------------------------------------------ *)

(** The generator state after [k] calls of [random()], and the value the
    next call returns. *)
Fixpoint advance (k : nat) (g : rng gen) : rng gen :=
  match k with
  | O => g
  | S k' => advance k' (snd (rng_random gen g))
  end.

Definition draw (k : nat) (g : rng gen) : float := fst (rng_random gen (advance k g)).

(** The first [n] values the generator returns from state [g]. *)
Fixpoint draws (n : nat) (g : rng gen) : list float :=
  match n with
  | O => []
  | S n' => let '(u, g') := rng_random gen g in u :: draws n' g'
  end.

(** The four checks of a trial, each on its own. *)
Definition bearing_ok (B gamma_r P_r : num) : result bool :=
  q_ult <- bearing_capacity_q_ult lm c gamma_r Df B phi ;;
  q_allow <- truediv q_ult FS_bearing ;;
  A <- mul B L ;;
  q_apply <- truediv P_r A ;;
  Ok (ge q_allow q_apply).

Definition sliding_ok (P_r : num) : result bool :=
  FSs <- sliding_fs P_r H mu ;;
  Ok (ge FSs FS_slide_req).

Definition overturning_ok (B P_r : num) : result bool :=
  FSo <- overturning_fs P_r B M ;;
  Ok (ge FSo FS_ot_req).

Definition settlement_ok (B Es_r P_r : num) : result bool :=
  s0 <- settlement_elastic lm P_r B L Es_r nu I ;;
  s <- mul s0 (Int 1000) ;;
  Ok (le s settle_limit).

(** A perturbed value as a function of the uniform variate [u] in [0, 1). *)
Definition perturbed_with (x var : num) (u : float) : result num :=
  v1 <- truediv var (Int 100) ;;
  lo <- sub (Int 1) v1 ;;
  v2 <- truediv var (Int 100) ;;
  hi <- add (Int 1) v2 ;;
  d <- sub hi lo ;;
  t <- mul d (Flt u) ;;
  f <- add lo t ;;
  mul x f.

(** The three samples of a trial from three variates, named by use. *)
Definition samples_with (u_gamma u_Es u_P : float) : result (num * num * num) :=
  gamma_r <- perturbed_with gamma g_var u_gamma ;;
  Es_r <- perturbed_with Es Es_var u_Es ;;
  P_r <- perturbed_with P P_var u_P ;;
  Ok (gamma_r, Es_r, P_r).

(** The outcome of a trial as a function of its three variates. *)
Definition trial_with (B : num) (u_gamma u_Es u_P : float) : result bool :=
  sm <- samples_with u_gamma u_Es u_P ;;
  let '(gamma_r, Es_r, P_r) := sm in
  trial_passes B gamma_r Es_r P_r.

(** Whether the trial that starts in state [g] passes. *)
Definition passes_at (B : num) (g : rng gen) : bool :=
  match trial B g with
  | Ok (true, _) => true
  | _ => false
  end.

(** Number of passing trials among the [n] trials that start in [g]. *)
Definition pass_count (n : nat) (B : num) (g : rng gen) : Z :=
  Z.of_nat (List.length (filter (fun j => passes_at B (advance (3 * j) g)) (seq 0 n))).

(** Results without the final generator state. *)
Definition results_of (r : result (list (num * num) * rng gen)) : result (list (num * num)) :=
  match r with
  | Ok (results, _) => Ok results
  | Raise e => Raise e
  end.

(** The trial outcome with the nominal values in place of the samples. *)
Definition nominal_passes (B : num) : result bool :=
  fg <- to_float gamma ;;
  fe <- to_float Es ;;
  fp <- to_float P ;;
  trial_passes B (Flt fg) (Flt fe) (Flt fp).

End MonteCarlo.

(** [(count / iterations) * 100] on ints [0 <= count], [0 < iterations]:
    the correctly rounded quotient, then the float product with [100.0]. *)
Definition percent_of (count iterations : Z) : float :=
  (round_ratio false count iterations * 100)%float.

(** [random()] promises a value in [0, 1). *)
Definition unit_interval (u : float) : bool :=
  PrimFloat.leb zero u && PrimFloat.ltb u one.

(** Tokens of the width text, the numbers read from them and the tokens
    rejected, spelled out over the token list. *)
Definition tokens (text : string) : list string :=
  map Text.strip (Text.split_on ","%char text).

Definition parsed_numbers (toks : list string) : list float :=
  flat_map (fun t => match Text.py_float t with Ok f => [f] | Raise _ => [] end) toks.

Definition rejected_tokens (toks : list string) : list string :=
  filter (fun t => negb (is_ok (Text.py_float t))) toks.

(* ------------------------------------------------------------------ *)
(** ** Closed inputs used in evaluations                                *)
(* ------------------------------------------------------------------ *)

(** A cohesive soil ([phi = 0]) with [nu = 0], so that no C library call
    is made; sliding is the governing check ([3 * H] is close to [P]). *)
Definition sliding_case (B_text : string) (iterations : Z) : Sidebar.t :=
  {| Sidebar.L := Flt 2; Sidebar.Df := Flt 1;
     Sidebar.c := Flt 200; Sidebar.phi := Flt 0; Sidebar.gamma := Flt 18;
     Sidebar.P := Flt 500; Sidebar.H := Flt 166; Sidebar.M := Flt 150;
     Sidebar.Es := Flt 30000; Sidebar.nu := Flt 0; Sidebar.mu := Flt 0.5;
     Sidebar.I := Flt 1;
     Sidebar.B_text := B_text; Sidebar.iterations := iterations; Sidebar.seed := 42;
     Sidebar.g_var := Int 10; Sidebar.P_var := Int 10; Sidebar.Es_var := Int 15;
     Sidebar.FS_bearing := Flt 3 |}.

(** The same case with all three uncertainty sliders at zero. *)
Definition certain_case (B_text : string) (iterations : Z) : Sidebar.t :=
  {| Sidebar.L := Flt 2; Sidebar.Df := Flt 1;
     Sidebar.c := Flt 200; Sidebar.phi := Flt 0; Sidebar.gamma := Flt 18;
     Sidebar.P := Flt 500; Sidebar.H := Flt 166; Sidebar.M := Flt 150;
     Sidebar.Es := Flt 30000; Sidebar.nu := Flt 0; Sidebar.mu := Flt 0.5;
     Sidebar.I := Flt 1;
     Sidebar.B_text := B_text; Sidebar.iterations := iterations; Sidebar.seed := 42;
     Sidebar.g_var := Int 0; Sidebar.P_var := Int 0; Sidebar.Es_var := Int 0;
     Sidebar.FS_bearing := Flt 3 |}.

(** The twister's state for seed 42 with its first block already
    regenerated: a different state that yields the same values. *)
Definition seed42_regenerated : MT19937.state :=
  {| MT19937.mt := MT19937.twist MT19937.N 0 (MT19937.mt (MT19937.Random 42));
     MT19937.index := 0 |}.

(** The separator of the width text. *)
Definition comma : ascii := ","%char.

Fixpoint count_commas (s : string) : nat :=
  match s with
  | EmptyString => O
  | String c s' => ((if Ascii.eqb c comma then 1 else 0) + count_commas s')%nat
  end.

(** [",".join(parts)]. *)
Fixpoint join_commas (parts : list string) : string :=
  match parts with
  | [] => EmptyString
  | p :: rest =>
      match rest with
      | [] => p
      | _ :: _ => p ++ String comma (join_commas rest)
      end
  end.

Fixpoint has_comma (s : string) : bool :=
  match s with
  | EmptyString => false
  | String c s' => Ascii.eqb c comma || has_comma s'
  end.

(** Text made of whitespace only. *)
Fixpoint all_space (s : string) : bool :=
  match s with
  | EmptyString => true
  | String c s' => Text.is_space c && all_space s'
  end.

(** Text made of whitespace and commas only. *)
Fixpoint is_blank (s : string) : bool :=
  match s with
  | EmptyString => true
  | String c s' => (Text.is_space c || Ascii.eqb c comma) && is_blank s'
  end.

(** The sidebar with another text in the "B values" field. *)
Definition with_B_text (sb : Sidebar.t) (text : string) : Sidebar.t :=
  {| Sidebar.L := Sidebar.L sb; Sidebar.Df := Sidebar.Df sb;
     Sidebar.c := Sidebar.c sb; Sidebar.phi := Sidebar.phi sb;
     Sidebar.gamma := Sidebar.gamma sb;
     Sidebar.P := Sidebar.P sb; Sidebar.H := Sidebar.H sb; Sidebar.M := Sidebar.M sb;
     Sidebar.Es := Sidebar.Es sb; Sidebar.nu := Sidebar.nu sb; Sidebar.mu := Sidebar.mu sb;
     Sidebar.I := Sidebar.I sb;
     Sidebar.B_text := text;
     Sidebar.iterations := Sidebar.iterations sb; Sidebar.seed := Sidebar.seed sb;
     Sidebar.g_var := Sidebar.g_var sb; Sidebar.P_var := Sidebar.P_var sb;
     Sidebar.Es_var := Sidebar.Es_var sb;
     Sidebar.FS_bearing := Sidebar.FS_bearing sb |}.

(** A footing under vertical load only: no horizontal load, no moment. *)
Definition vertical_only_case (B_text : string) (iterations : Z) : Sidebar.t :=
  {| Sidebar.L := Flt 2; Sidebar.Df := Flt 1;
     Sidebar.c := Flt 200; Sidebar.phi := Flt 0; Sidebar.gamma := Flt 18;
     Sidebar.P := Flt 500; Sidebar.H := Flt 0; Sidebar.M := Flt 0;
     Sidebar.Es := Flt 30000; Sidebar.nu := Flt 0; Sidebar.mu := Flt 0.5;
     Sidebar.I := Flt 1;
     Sidebar.B_text := B_text; Sidebar.iterations := iterations; Sidebar.seed := 42;
     Sidebar.g_var := Int 10; Sidebar.P_var := Int 10; Sidebar.Es_var := Int 15;
     Sidebar.FS_bearing := Flt 3 |}.

(* ================================================================== *)
(** * Facts                                                             *)
(* ================================================================== *)

(** ** The model of the library against known values of CPython *)

Example random_seed_42 :
  draws mersenne_twister 3 (MT19937.Random 42)
  = [0.6394267984578837; 0.025010755222666936; 0.27502931836911926]%float.
Proof. vm_compute. reflexivity. Qed.

Example float_of_text :
  map Text.py_float ["1e3"; " 2.5 "; "1_000.5"; "-Infinity"; "1e400"; "1__0"; "0x10"; ""]%string
  = [Ok 1000; Ok 2.5; Ok 1000.5; Ok neg_infinity; Ok infinity;
     Raise ValueError; Raise ValueError; Raise ValueError]%float.
Proof. vm_compute. reflexivity. Qed.

Example int_division_rounds_once :
  int_truediv 1 3 = Ok (1 / 3)%float /\ int_truediv 0 (-5) = Ok (-0)%float
  /\ int_truediv 1 0 = Raise ZeroDivisionError.
Proof. repeat split; vm_compute; reflexivity. Qed.

(** ** Binary64 identities used below *)

Lemma digits2_pos_shift52 (m : positive) :
  Zpos (digits2_pos (4503599627370496 * m)) = Zpos (digits2_pos m) + 52.
Proof.
  cbn [Pos.mul digits2_pos].
  lia.
Qed.

(** Multiplying a valid binary64 value by [1.0] is exact. *)
Lemma SFmul_one_r (x : spec_float) :
  SpecFloat.valid_binary prec emax x = true -> SF64mul x (Prim2SF 1%float) = x.
Proof.
  destruct x as [s | s | | s m e]; intros Hv; try reflexivity.
  - destruct s; reflexivity.
  - destruct s; reflexivity.
  - change (Prim2SF 1%float) with (S754_finite false 4503599627370496 (-52)).
    unfold SF64mul, SFmul.
    unfold SpecFloat.valid_binary, bounded, canonical_mantissa in Hv.
    apply andb_prop in Hv. destruct Hv as [Hc Hb].
    apply Z.eqb_eq in Hc. apply Z.leb_le in Hb.
    assert (Hc' : fexp prec emax (Z.pos (digits2_pos m) + e) = e) by exact Hc.
    assert (He : (e <=? emax - prec) = true) by (apply Z.leb_le; exact Hb).
    unfold binary_round_aux.
    rewrite Pos.mul_comm.
    unfold shr_fexp at 1. unfold Zdigits2.
    rewrite digits2_pos_shift52.
    replace (Z.pos (digits2_pos m) + 52 + (e + -52)) with (Z.pos (digits2_pos m) + e) by lia.
    rewrite Hc'.
    replace (e - (e + -52)) with 52 by lia.
    unfold shr.
    cbn [iter_pos Pos.mul shr_record_of_loc shr_1 shr_m shr_r shr_s orb].
    cbn [loc_of_shr_record shr_m shr_r shr_s round_nearest_even].
    replace (e + -52 + 52) with e by lia.
    unfold shr_fexp, Zdigits2. first [rewrite Hc | rewrite Hc'].
    rewrite Z.sub_diag. cbn [shr shr_record_of_loc shr_m].
    rewrite He, xorb_false_r. reflexivity.
Qed.

Lemma mul_one_r (x : float) : (x * 1)%float = x.
Proof.
  apply Prim2SF_inj. rewrite mul_spec. apply SFmul_one_r. apply Prim2SF_valid.
Qed.

Lemma unit_interval_cases (u : float) :
  unit_interval u = true ->
  (exists s, Prim2SF u = S754_zero s) \/ (exists s m e, Prim2SF u = S754_finite s m e).
Proof.
  unfold unit_interval. intros Hu. apply andb_prop in Hu. destruct Hu as [H0 H1].
  rewrite leb_spec in H0. rewrite ltb_spec in H1.
  destruct (Prim2SF u) as [s | s | | s m e].
  - left. eauto.
  - destruct s; cbv in H0, H1; discriminate.
  - cbv in H0. discriminate.
  - right. eauto.
Qed.

(** [uniform(1.0, 1.0)] is [1.0] whatever [random()] returned in [0, 1). *)
Lemma degenerate_uniform (u : float) :
  unit_interval u = true -> (1 + (1 - 1) * u)%float = 1%float.
Proof.
  intros Hu. apply Prim2SF_inj. rewrite add_spec, mul_spec.
  destruct (unit_interval_cases u Hu) as [[s Hs] | [s [m [e Hs]]]]; rewrite Hs;
    destruct s; reflexivity.
Qed.

Lemma overflow_bound_gt_1 : 1 < overflow_bound.
Proof. reflexivity. Qed.

Lemma int_to_float_100 : int_to_float 100 = Ok 100%float.
Proof. vm_compute. reflexivity. Qed.

Lemma percent_full (n : Z) : 1 <= n -> percent_of n n = 100%float.
Proof.
  intros Hn. unfold percent_of, round_ratio.
  destruct (Z.eqb_spec n 0) as [H0 | _]; [lia | ].
  replace (64 + Z.log2 n - Z.log2 n) with 64 by lia.
  change (Z.max 0 64) with 64.
  rewrite (Z.mul_comm n (2 ^ 64)), Z.div_mul, Z.mod_mul by lia.
  vm_compute. reflexivity.
Qed.

Lemma percent_none (n : Z) : percent_of 0 n = 0%float.
Proof. vm_compute. reflexivity. Qed.

Lemma Forall2_of_nth_error {A B : Type} (R : A -> B -> Prop) (l : list A) (l' : list B) :
  List.length l' = List.length l ->
  (forall i a, nth_error l i = Some a -> exists b, nth_error l' i = Some b /\ R a b) ->
  Forall2 R l l'.
Proof.
  revert l'. induction l as [| a l IH]; intros [| b l'] Hl Hn; try discriminate.
  - constructor.
  - constructor.
    + destruct (Hn 0%nat a eq_refl) as [b0 [Hb HR]]. now inversion Hb; subst.
    + apply IH; [now inversion Hl | ].
      intros i a0 Ha. exact (Hn (S i) a0 Ha).
Qed.

(* ------------------------------------------------------------------ *)
(** ** Formula library                                                  *)
(* ------------------------------------------------------------------ *)

(** C5.  With no horizontal load ([H] is the int [0] or a float zero of
    either sign) [sliding_fs] returns the int sentinel [999] for every [P]
    and [mu], without evaluating [P * mu]; with no overturning moment
    [overturning_fs] returns the same sentinel for every float [P] and [B].
    Neither call raises, and the result is not an infinity or a NaN. *)
Theorem C5_zero_demand_sentinel :
  (forall P mu : num,
      sliding_fs P (Int 0) mu = Ok (Int 999)
      /\ sliding_fs P (Flt 0) mu = Ok (Int 999)
      /\ sliding_fs P (Flt (-0)) mu = Ok (Int 999))
  /\ (forall P B : float,
      overturning_fs (Flt P) (Flt B) (Int 0) = Ok (Int 999)
      /\ overturning_fs (Flt P) (Flt B) (Flt 0) = Ok (Int 999)
      /\ overturning_fs (Flt P) (Flt B) (Flt (-0)) = Ok (Int 999))
  /\ sliding_fs (Int 500) (Int 0) (Flt 0.5) = Ok (Int 999)
  /\ overturning_fs (Int 500) (Int 2) (Int 0) = Ok (Int 999).
Proof.
  repeat split; reflexivity.
Qed.

(** C9.  At a friction angle of exactly zero the factors are [Nq = 1] and
    [Ngamma = 0] (with [Nc = 5.14]) whatever the C library is, so no
    [exp] or [tan] is evaluated; the capacity is
    [c * 5.14 + gamma * Df * 1 + 0.5 * gamma * B * 0] in binary64, and for
    [c = 20], [gamma = 18], [Df = 1], [B = 2] it is the float [120.8]
    exactly, with int or float arguments. *)
Theorem C9_cohesive_bearing_capacity :
  (forall (lm : libm) (phi_rad : num),
      bearing_factors lm (Int 0) phi_rad = Ok (Int 1, Int 0)
      /\ bearing_factors lm (Flt 0) phi_rad = Ok (Int 1, Int 0))
  /\ (forall (lm : libm) (c gamma Df B : float),
      bearing_capacity_q_ult lm (Flt c) (Flt gamma) (Flt Df) (Flt B) (Flt 0)
      = Ok (Flt (c * 5.14 + gamma * Df * 1 + 0.5 * gamma * B * 0)%float))
  /\ (forall lm : libm,
      bearing_capacity_q_ult lm (Int 20) (Int 18) (Int 1) (Int 2) (Int 0) = Ok (Flt 120.8)
      /\ bearing_capacity_q_ult lm (Flt 20) (Flt 18) (Flt 1) (Flt 2) (Flt 0) = Ok (Flt 120.8))
  /\ (20 * 5.14 + 18 * 1 * 1 + 0 = 120.8)%float.
Proof.
  repeat split; reflexivity.
Qed.

(** C6, as stated, fails: a zero or negative width is accepted by
    [bearing_capacity_q_ult], and [settlement_elastic] returns a value for
    a negative plan area ([B * L = -4]) and for a negative modulus. *)
Lemma C6_nonpositive_inputs_accepted :
  bearing_capacity_q_ult libm_failing (Flt 20) (Flt 18) (Flt 1) (Flt 0) (Flt 0)
  = Ok (Flt 120.8)
  /\ bearing_capacity_q_ult libm_failing (Flt 20) (Flt 18) (Flt 1) (Flt (-2)) (Flt 0)
     = Ok (Flt 120.8)
  /\ settlement_elastic libm_failing (Flt 500) (Flt (-2)) (Flt 2) (Flt 30000) (Flt 0) (Flt 1)
     = Ok (Flt 0.0083333333333333332)
  /\ settlement_elastic libm_failing (Flt 500) (Flt 2) (Flt 2) (Flt (-30000)) (Flt 0) (Flt 1)
     = Ok (Flt (-0.0083333333333333332)).
Proof.
  repeat split; vm_compute; reflexivity.
Qed.

Lemma pow2_float (lm : libm) (x : float) (r : num) :
  pow2 lm (Flt x) = Ok r -> exists y, r = Flt y.
Proof.
  unfold pow2.
  repeat match goal with
         | |- context [if ?b then _ else _] => destruct b
         end; intros Hr; inversion Hr; eauto.
Qed.

(** C6, amended.  On floats, [settlement_elastic] raises
    [ZeroDivisionError] when [B * L] is a zero; with a non-zero [B * L] and
    a zero [Es] it raises too ([ZeroDivisionError], unless [nu ** 2] raised
    first); for every other input, negative plan area or modulus included,
    it returns [I * (P / (B * L)) * B * (1 - nu ** 2) / Es] unchecked.
    [bearing_capacity_q_ult] at [phi = 0] returns its value for every
    width. *)
Theorem C6_settlement_fails_only_on_zero (lm : libm) (P B L Es nu I c gamma Df : float) :
  ((B * L =? 0)%float = true ->
     settlement_elastic lm (Flt P) (Flt B) (Flt L) (Flt Es) (Flt nu) (Flt I)
     = Raise ZeroDivisionError)
  /\ ((B * L =? 0)%float = false -> (Es =? 0)%float = true ->
     settlement_elastic lm (Flt P) (Flt B) (Flt L) (Flt Es) (Flt nu) (Flt I)
     = match pow2 lm (Flt nu) with
       | Ok _ => Raise ZeroDivisionError
       | Raise e => Raise e
       end)
  /\ ((B * L =? 0)%float = false -> (Es =? 0)%float = false ->
     forall n2 : float, pow2 lm (Flt nu) = Ok (Flt n2) ->
     settlement_elastic lm (Flt P) (Flt B) (Flt L) (Flt Es) (Flt nu) (Flt I)
     = Ok (Flt (I * (P / (B * L)) * B * (1 - n2) / Es)%float))
  /\ bearing_capacity_q_ult lm (Flt c) (Flt gamma) (Flt Df) (Flt B) (Flt 0)
     = Ok (Flt (c * 5.14 + gamma * Df * 1 + 0.5 * gamma * B * 0)%float).
Proof.
  unfold settlement_elastic. cbn [mul float_binop to_float bind truediv].
  change PrimFloat.zero with 0%float.
  split; [ | split; [ | split]].
  - intros HA. rewrite HA. reflexivity.
  - intros HA HE. rewrite HA. cbn [bind].
    destruct (pow2 lm (Flt nu)) as [n2 | e] eqn:Hp; [ | reflexivity].
    destruct (pow2_float _ _ _ Hp) as [y ->].
    cbn. change PrimFloat.zero with 0%float. rewrite HE. reflexivity.
  - intros HA HE n2 Hp. rewrite HA, Hp. cbn.
    change PrimFloat.zero with 0%float. rewrite HE. reflexivity.
  - reflexivity.
Qed.

(* ------------------------------------------------------------------ *)
(** ** Input parser                                                     *)
(* ------------------------------------------------------------------ *)

Lemma safe_float_fold (parts : list string) (numbers : list float) (bad : list string) :
  fold_left safe_float_step parts (numbers, bad)
  = (numbers ++ parsed_numbers (map Text.strip parts),
     bad ++ rejected_tokens (map Text.strip parts)).
Proof.
  revert numbers bad.
  induction parts as [| x parts IH]; intros numbers bad.
  - simpl. now rewrite !app_nil_r.
  - cbn [fold_left map]. unfold safe_float_step at 2.
    unfold parsed_numbers, rejected_tokens in *.
    cbn [flat_map filter].
    destruct (Text.py_float (Text.strip x)) as [f | e]; rewrite IH; cbn [is_ok negb];
      now rewrite <- ?app_assoc.
Qed.

Lemma split_on_nonempty (sep : ascii) (s : string) : Text.split_on sep s <> [].
Proof.
  destruct s as [| c s]; cbn [Text.split_on]; [discriminate | ].
  destruct (Ascii.eqb c sep); [discriminate | ].
  destruct (Text.split_on sep s); discriminate.
Qed.

Lemma rstrip_by_cons (p : ascii -> bool) (c : ascii) (s : string) :
  Text.rstrip_by p (String c s)
  = match Text.rstrip_by p s with
    | EmptyString => if p c then EmptyString else String c EmptyString
    | String d r => String c (String d r)
    end.
Proof. reflexivity. Qed.

Lemma rstrip_by_idem (p : ascii -> bool) (s : string) :
  Text.rstrip_by p (Text.rstrip_by p s) = Text.rstrip_by p s.
Proof.
  induction s as [| c s IH]; [reflexivity | ].
  rewrite rstrip_by_cons.
  destruct (Text.rstrip_by p s) as [| d r] eqn:Hr.
  - destruct (p c) eqn:Hp; [reflexivity | ].
    rewrite rstrip_by_cons. cbn [Text.rstrip_by]. now rewrite Hp.
  - rewrite rstrip_by_cons, IH. reflexivity.
Qed.

Lemma rstrip_by_head (p : ascii -> bool) (c : ascii) (s : string) :
  Text.rstrip_by p (String c s) = EmptyString
  \/ exists r, Text.rstrip_by p (String c s) = String c r.
Proof.
  cbn [Text.rstrip_by].
  destruct (Text.rstrip_by p s) as [| d r].
  - destruct (p c); [now left | right; eauto].
  - right. eauto.
Qed.

Lemma lstrip_by_head (p : ascii -> bool) (s : string) :
  Text.lstrip_by p s = EmptyString
  \/ exists c r, Text.lstrip_by p s = String c r /\ p c = false.
Proof.
  induction s as [| c s IH]; [now left | ].
  cbn [Text.lstrip_by]. destruct (p c) eqn:Hp; [exact IH | ].
  right. eauto.
Qed.

Lemma join_commas_cons (c : ascii) (x : string) (xs : list string) :
  join_commas (String c x :: xs) = String c (join_commas (x :: xs)).
Proof. destruct xs; reflexivity. Qed.

Lemma split_on_join (text : string) :
  join_commas (Text.split_on comma text) = text.
Proof.
  induction text as [| c s IH]; [reflexivity | ].
  cbn [Text.split_on].
  pose proof (split_on_nonempty comma s) as Hne.
  destruct (Ascii.eqb_spec c comma) as [-> | Hc].
  - destruct (Text.split_on comma s) as [| x xs]; [contradiction | ].
    cbn [join_commas String.append]. cbn [join_commas] in IH. now rewrite IH.
  - destruct (Text.split_on comma s) as [| x xs]; [contradiction | ].
    rewrite join_commas_cons. now rewrite IH.
Qed.

Lemma split_on_comma_free (text : string) :
  Forall (fun p => has_comma p = false) (Text.split_on comma text).
Proof.
  induction text as [| c s IH]; [repeat constructor | ].
  cbn [Text.split_on].
  destruct (Ascii.eqb c comma) eqn:Hc.
  - constructor; [reflexivity | exact IH].
  - destruct (Text.split_on comma s) as [| x xs]; [repeat constructor; cbn; now rewrite Hc | ].
    inversion IH; subst. constructor; [ | assumption].
    cbn [has_comma]. rewrite Hc. assumption.
Qed.

Lemma lstrip_split (s : string) :
  exists l, s = (l ++ Text.lstrip_by Text.is_space s)%string /\ all_space l = true.
Proof.
  induction s as [| c s [l [Hs Hl]]].
  - exists EmptyString. split; reflexivity.
  - cbn [Text.lstrip_by]. destruct (Text.is_space c) eqn:Hc.
    + exists (String c l). cbn [String.append all_space]. rewrite Hc, Hl.
      split; [now rewrite <- Hs | reflexivity].
    + exists EmptyString. split; reflexivity.
Qed.

Lemma rstrip_split (s : string) :
  exists r, s = (Text.rstrip_by Text.is_space s ++ r)%string /\ all_space r = true.
Proof.
  induction s as [| c s [r [Hs Hr]]].
  - exists EmptyString. split; reflexivity.
  - rewrite rstrip_by_cons.
    destruct (Text.rstrip_by Text.is_space s) as [| d t].
    + cbn [String.append] in Hs. subst r.
      destruct (Text.is_space c) eqn:Hc.
      * exists (String c s). cbn [String.append all_space]. rewrite Hc, Hr.
        split; reflexivity.
      * exists s. split; [reflexivity | exact Hr].
    + exists r. cbn [String.append] in *. split; [now rewrite <- Hs | exact Hr].
Qed.

Lemma rstrip_last (p : ascii -> bool) (s t : string) (c : ascii) :
  Text.rstrip_by p s = (t ++ String c EmptyString)%string -> p c = false.
Proof.
  revert t. induction s as [| a s IH]; intros t Ht.
  - destruct t; discriminate.
  - rewrite rstrip_by_cons in Ht.
    destruct (Text.rstrip_by p s) as [| d u].
    + destruct (p a) eqn:Ha; [destruct t; discriminate | ].
      destruct t as [| b t]; cbn [String.append] in Ht.
      * inversion Ht; subst. exact Ha.
      * inversion Ht. destruct t; discriminate.
    + destruct t as [| b t]; cbn [String.append] in Ht; [discriminate | ].
      inversion Ht; subst. apply (IH t). assumption.
Qed.

Lemma strip_first (x : string) (c : ascii) (s : string) :
  Text.strip x = String c s -> Text.is_space c = false.
Proof.
  unfold Text.strip.
  destruct (lstrip_by_head Text.is_space x) as [-> | [a [r [-> Ha]]]]; [discriminate | ].
  destruct (rstrip_by_head Text.is_space a r) as [-> | [r' ->]]; [discriminate | ].
  intros H. inversion H; subst. exact Ha.
Qed.

Lemma strip_split (x : string) :
  exists l r, x = (l ++ Text.strip x ++ r)%string /\ all_space l = true /\ all_space r = true.
Proof.
  destruct (lstrip_split x) as [l [Hx Hl]].
  destruct (rstrip_split (Text.lstrip_by Text.is_space x)) as [r [Hm Hr]].
  exists l, r. unfold Text.strip. rewrite <- Hm. auto.
Qed.

(** C8.  [safe_float_list] splits the text on commas, strips each token
    and gives it to [float]; the numbers are the tokens [float] accepts,
    in order, and the rejected list holds the stripped tokens it refuses,
    in order; every text yields such a pair (no token aborts the parse).
    The split is the one of [str.split(",")]: the parts hold no comma and
    joined by commas they give the text back.  The strip is the one of
    [str.strip()]: a token is its part without a run of whitespace at each
    end, and neither begins nor ends with whitespace.  On
    ["1.5,2.0,abc,2.5"] the pair is [[1.5; 2.0; 2.5]] and [["abc"]]; on
    [" 1.5 ,  a bc ,\t2.0\n, "] it is [[1.5; 2.0]] and [["a bc"; ""]]. *)
Theorem C8_parse_width_list :
  (forall text : string,
      safe_float_list text
      = (parsed_numbers (tokens text), rejected_tokens (tokens text)))
  /\ (forall text : string,
        Text.split_on comma text <> []
        /\ join_commas (Text.split_on comma text) = text
        /\ Forall (fun p => has_comma p = false) (Text.split_on comma text))
  /\ (forall x : string,
        (exists l r, x = (l ++ Text.strip x ++ r)%string
                     /\ all_space l = true /\ all_space r = true)
        /\ (forall c s, Text.strip x = String c s -> Text.is_space c = false)
        /\ (forall s c, Text.strip x = (s ++ String c EmptyString)%string ->
                        Text.is_space c = false))
  /\ safe_float_list "1.5,2.0,abc,2.5" = ([1.5; 2.0; 2.5]%float, ["abc"%string])
  /\ safe_float_list (" 1.5 ,  a bc ," ++ String "009" ("2.0" ++ String "010" ", "))
     = ([1.5; 2.0]%float, ["a bc"%string; ""%string]).
Proof.
  split; [ | split; [ | split; [ | split]]].
  - intros text. unfold safe_float_list. now rewrite safe_float_fold.
  - intros text. split; [apply split_on_nonempty | ].
    split; [apply split_on_join | apply split_on_comma_free].
  - intros x. split; [apply strip_split | ].
    split; [apply strip_first | ].
    intros s c. unfold Text.strip. apply rstrip_last.
  - vm_compute. reflexivity.
  - vm_compute. reflexivity.
Qed.

(* ------------------------------------------------------------------ *)
(** ** Trial evaluator and reliability loop                             *)
(* ------------------------------------------------------------------ *)

Section LoopFacts.

Variable lm : libm.
Variable gen : generator.
Variable sb : Sidebar.t.

Local Abbreviation n_iter := (Z.to_nat (Sidebar.iterations sb)).

(** C1.  For every width and every sampled triple, the trial passes exactly
    when the bearing, sliding, overturning and settlement checks all pass;
    when the four checks evaluate, the outcome is their conjunction, and an
    outcome of the trial always comes from four evaluated checks.  The
    outcome of a pass through the loop body is this evaluation on the
    triple it sampled. *)
Theorem C1_trial_passes_iff_all_four (B gamma_r Es_r P_r : num) :
  (trial_passes lm sb B gamma_r Es_r P_r = Ok true
   <-> bearing_ok lm sb B gamma_r P_r = Ok true
       /\ sliding_ok sb P_r = Ok true
       /\ overturning_ok sb B P_r = Ok true
       /\ settlement_ok lm sb B Es_r P_r = Ok true)
  /\ (forall b1 b2 b3 b4 : bool,
       bearing_ok lm sb B gamma_r P_r = Ok b1 ->
       sliding_ok sb P_r = Ok b2 ->
       overturning_ok sb B P_r = Ok b3 ->
       settlement_ok lm sb B Es_r P_r = Ok b4 ->
       trial_passes lm sb B gamma_r Es_r P_r = Ok (b1 && b2 && b3 && b4))
  /\ (forall b : bool,
       trial_passes lm sb B gamma_r Es_r P_r = Ok b ->
       exists b1 b2 b3 b4 : bool,
         bearing_ok lm sb B gamma_r P_r = Ok b1
         /\ sliding_ok sb P_r = Ok b2
         /\ overturning_ok sb B P_r = Ok b3
         /\ settlement_ok lm sb B Es_r P_r = Ok b4
         /\ b = b1 && b2 && b3 && b4)
  /\ (forall (g g' : rng gen) (b : bool),
       trial lm gen sb B g = Ok (b, g') ->
       exists g_r E_r p_r : num,
         sample gen sb g = Ok (g_r, E_r, p_r, g')
         /\ trial_passes lm sb B g_r E_r p_r = Ok b).
Proof.
  assert (Hloop : forall (g g' : rng gen) (b : bool),
             trial lm gen sb B g = Ok (b, g') ->
             exists g_r E_r p_r : num,
               sample gen sb g = Ok (g_r, E_r, p_r, g')
               /\ trial_passes lm sb B g_r E_r p_r = Ok b).
  { intros g g' b. unfold trial.
    destruct (sample gen sb g) as [[[[g_r E_r] p_r] g1] | e]; cbn [bind];
      [ | discriminate].
    destruct (trial_passes lm sb B g_r E_r p_r) as [b0 | e] eqn:Hp; cbn [bind];
      [ | discriminate].
    intros Ht. inversion Ht; subst. now exists g_r, E_r, p_r. }
  cut ((trial_passes lm sb B gamma_r Es_r P_r = Ok true
        <-> bearing_ok lm sb B gamma_r P_r = Ok true
            /\ sliding_ok sb P_r = Ok true
            /\ overturning_ok sb B P_r = Ok true
            /\ settlement_ok lm sb B Es_r P_r = Ok true)
       /\ (forall b1 b2 b3 b4 : bool,
            bearing_ok lm sb B gamma_r P_r = Ok b1 ->
            sliding_ok sb P_r = Ok b2 ->
            overturning_ok sb B P_r = Ok b3 ->
            settlement_ok lm sb B Es_r P_r = Ok b4 ->
            trial_passes lm sb B gamma_r Es_r P_r = Ok (b1 && b2 && b3 && b4))
       /\ (forall b : bool,
            trial_passes lm sb B gamma_r Es_r P_r = Ok b ->
            exists b1 b2 b3 b4 : bool,
              bearing_ok lm sb B gamma_r P_r = Ok b1
              /\ sliding_ok sb P_r = Ok b2
              /\ overturning_ok sb B P_r = Ok b3
              /\ settlement_ok lm sb B Es_r P_r = Ok b4
              /\ b = b1 && b2 && b3 && b4)).
  { intros [H1 [H2 H3]].
    split; [exact H1 | split; [exact H2 | split; [exact H3 | exact Hloop]]]. }
  clear Hloop.
  unfold trial_passes, bearing_ok, sliding_ok, overturning_ok, settlement_ok.
  destruct (bearing_capacity_q_ult lm (Sidebar.c sb) gamma_r (Sidebar.Df sb) B (Sidebar.phi sb))
    as [q_ult | e1]; cbn [bind];
    [ | repeat split; try discriminate; intros; try discriminate; intuition discriminate ].
  destruct (truediv q_ult (Sidebar.FS_bearing sb)) as [q_allow | e2]; cbn [bind];
    [ | repeat split; try discriminate; intros; try discriminate; intuition discriminate ].
  destruct (mul B (Sidebar.L sb)) as [A | e3]; cbn [bind];
    [ | repeat split; try discriminate; intros; try discriminate; intuition discriminate ].
  destruct (truediv P_r A) as [q_apply | e4]; cbn [bind];
    [ | repeat split; try discriminate; intros; try discriminate; intuition discriminate ].
  destruct (sliding_fs P_r (Sidebar.H sb) (Sidebar.mu sb)) as [FSs | e5]; cbn [bind];
    [ | repeat split; try discriminate; intros; try discriminate; intuition discriminate ].
  destruct (overturning_fs P_r B (Sidebar.M sb)) as [FSo | e6]; cbn [bind];
    [ | repeat split; try discriminate; intros; try discriminate; intuition discriminate ].
  destruct (settlement_elastic lm P_r B (Sidebar.L sb) Es_r (Sidebar.nu sb) (Sidebar.I sb))
    as [s0 | e7]; cbn [bind];
    [ | repeat split; try discriminate; intros; try discriminate; intuition discriminate ].
  destruct (mul s0 (Int 1000)) as [s | e8]; cbn [bind];
    [ | repeat split; try discriminate; intros; try discriminate; intuition discriminate ].
  split; [ | split ].
  - split.
    + intros Hp. injection Hp as Hp.
      apply andb_prop in Hp. destruct Hp as [Hp H4].
      apply andb_prop in Hp. destruct Hp as [Hp H3].
      apply andb_prop in Hp. destruct Hp as [H1 H2].
      now rewrite H1, H2, H3, H4.
    + intros [H1 [H2 [H3 H4]]].
      injection H1 as H1. injection H2 as H2. injection H3 as H3. injection H4 as H4.
      now rewrite H1, H2, H3, H4.
  - intros b1 b2 b3 b4 H1 H2 H3 H4.
    injection H1 as <-. injection H2 as <-. injection H3 as <-. injection H4 as <-.
    reflexivity.
  - intros b Hb. injection Hb as <-.
    do 4 eexists. repeat split; reflexivity.
Qed.

(** *** The generator is threaded linearly *)

Lemma advance_add (a b : nat) (g : rng gen) :
  advance gen (a + b) g = advance gen b (advance gen a g).
Proof. revert g; induction a as [| a IH]; intros g; simpl; auto. Qed.

Lemma draw_advance (a k : nat) (g : rng gen) :
  draw gen k (advance gen a g) = draw gen (a + k) g.
Proof. unfold draw. now rewrite advance_add. Qed.

Lemma draws_nth (n k : nat) (g : rng gen) :
  (k < n)%nat -> nth_error (draws gen n g) k = Some (draw gen k g).
Proof.
  revert k g. induction n as [| n IH]; intros k g Hk; [lia | ].
  cbn [draws]. destruct (rng_random gen g) as [u g'] eqn:Hr.
  destruct k as [| k].
  - cbn [nth_error]. unfold draw. cbn [advance]. now rewrite Hr.
  - cbn [nth_error]. rewrite IH by lia. unfold draw. cbn [advance]. now rewrite Hr.
Qed.

Lemma draws_agree (n : nat) (g g' : rng gen) :
  draws gen n g = draws gen n g' ->
  forall k, (k < n)%nat -> draw gen k g = draw gen k g'.
Proof.
  intros Hd k Hk.
  pose proof (draws_nth n k g Hk) as H1. pose proof (draws_nth n k g' Hk) as H2.
  rewrite Hd in H1. congruence.
Qed.

Lemma draws_in_unit (n : nat) (g : rng gen) :
  forallb unit_interval (draws gen n g) = true ->
  forall k, (k < n)%nat -> unit_interval (draw gen k g) = true.
Proof.
  intros Hall k Hk. rewrite forallb_forall in Hall.
  apply Hall. eapply nth_error_In. apply draws_nth. exact Hk.
Qed.

Lemma perturbed_draw (x var : num) (g : rng gen) :
  perturbed gen x var g
  = (r <- perturbed_with x var (draw gen 0 g) ;; Ok (r, advance gen 1 g)).
Proof.
  unfold perturbed, perturbed_with, uniform, draw. cbn [advance].
  destruct (rng_random gen g) as [u g'] eqn:Hr. cbn [fst snd].
  destruct (truediv var (Int 100)) as [v | e]; cbn [bind]; [ | reflexivity].
  destruct (sub (Int 1) v) as [lo | e]; cbn [bind]; [ | reflexivity].
  destruct (add (Int 1) v) as [hi | e]; cbn [bind]; [ | reflexivity].
  destruct (sub hi lo) as [d | e]; cbn [bind]; [ | reflexivity].
  destruct (mul d (Flt u)) as [t | e]; cbn [bind]; [ | reflexivity].
  destruct (add lo t) as [f | e]; cbn [bind]; [ | reflexivity].
  destruct (mul x f) as [r | e]; reflexivity.
Qed.

Lemma sample_draws (g : rng gen) :
  sample gen sb g
  = (s <- samples_with sb (draw gen 0 g) (draw gen 1 g) (draw gen 2 g) ;;
     Ok (s, advance gen 3 g)).
Proof.
  unfold sample, samples_with. rewrite perturbed_draw.
  destruct (perturbed_with (Sidebar.gamma sb) (Sidebar.g_var sb) (draw gen 0 g))
    as [gamma_r | e]; cbn [bind]; [ | reflexivity].
  rewrite perturbed_draw.
  change (draw gen 0 (advance gen 1 g)) with (draw gen 1 g).
  destruct (perturbed_with (Sidebar.Es sb) (Sidebar.Es_var sb) (draw gen 1 g))
    as [Es_r | e]; cbn [bind]; [ | reflexivity].
  rewrite perturbed_draw.
  change (draw gen 0 (advance gen 1 (advance gen 1 g))) with (draw gen 2 g).
  destruct (perturbed_with (Sidebar.P sb) (Sidebar.P_var sb) (draw gen 2 g))
    as [P_r | e]; cbn [bind]; reflexivity.
Qed.

Lemma trial_draws (B : num) (g : rng gen) :
  trial lm gen sb B g
  = (b <- trial_with lm sb B (draw gen 0 g) (draw gen 1 g) (draw gen 2 g) ;;
     Ok (b, advance gen 3 g)).
Proof.
  unfold trial, trial_with. rewrite sample_draws.
  destruct (samples_with sb (draw gen 0 g) (draw gen 1 g) (draw gen 2 g))
    as [[[gamma_r Es_r] P_r] | e]; cbn [bind]; reflexivity.
Qed.

Lemma trial_state (B : num) (g g' : rng gen) (b : bool) :
  trial lm gen sb B g = Ok (b, g') -> g' = advance gen 3 g.
Proof.
  rewrite trial_draws.
  destruct (trial_with lm sb B (draw gen 0 g) (draw gen 1 g) (draw gen 2 g));
    cbn [bind]; intros Ht; now inversion Ht.
Qed.

Lemma passes_at_ok (B : num) (g g' : rng gen) (b : bool) :
  trial lm gen sb B g = Ok (b, g') -> passes_at lm gen sb B g = b.
Proof. unfold passes_at. intros ->. now destruct b. Qed.

(** *** Counting the passing trials *)

Lemma pass_count_0 (B : num) (g : rng gen) : pass_count lm gen sb 0 B g = 0.
Proof. reflexivity. Qed.

Lemma pass_count_S (n : nat) (B : num) (g : rng gen) :
  pass_count lm gen sb (S n) B g
  = (if passes_at lm gen sb B g then 1 else 0)
    + pass_count lm gen sb n B (advance gen 3 g).
Proof.
  unfold pass_count. cbn [seq filter]. rewrite <- seq_shift.
  assert (Hf : forall l : list nat,
             List.length (filter (fun j => passes_at lm gen sb B (advance gen (3 * j) g))
                            (map S l))
             = List.length (filter (fun j => passes_at lm gen sb B
                                               (advance gen (3 * j) (advance gen 3 g))) l)).
  { induction l as [| j l IH]; [reflexivity | ].
    cbn [map filter].
    replace (3 * S j)%nat with (3 + 3 * j)%nat by lia.
    rewrite advance_add.
    destruct (passes_at lm gen sb B (advance gen (3 * j) (advance gen 3 g)));
      cbn [List.length]; now rewrite IH. }
  rewrite <- Hf.
  change (advance gen (3 * 0) g) with g.
  destruct (passes_at lm gen sb B g); cbn [List.length]; lia.
Qed.

Lemma pass_count_bounds (n : nat) (B : num) (g : rng gen) :
  0 <= pass_count lm gen sb n B g <= Z.of_nat n.
Proof.
  unfold pass_count.
  pose proof (filter_length_le
                (fun j => passes_at lm gen sb B (advance gen (3 * j) g)) (seq 0 n)) as Hl.
  rewrite length_seq in Hl. lia.
Qed.

Lemma pass_count_constant (n : nat) (B : num) (g : rng gen) (b : bool) :
  (forall j, (j < n)%nat -> passes_at lm gen sb B (advance gen (3 * j) g) = b) ->
  pass_count lm gen sb n B g = if b then Z.of_nat n else 0.
Proof.
  revert g. induction n as [| n IH]; intros g Hall.
  - rewrite pass_count_0. now destruct b.
  - rewrite pass_count_S.
    pose proof (Hall 0%nat ltac:(lia)) as H0.
    change (advance gen (3 * 0) g) with g in H0. rewrite H0.
    rewrite IH.
    + destruct b; lia.
    + intros j Hj. rewrite <- advance_add.
      replace (3 + 3 * j)%nat with (3 * S j)%nat by lia. apply Hall. lia.
Qed.

(** What [n] rounds of the inner loop do: either every trial evaluates,
    the count grows by the number of passing trials and [3 * n] values
    are consumed, or some trial raises and the loop raises the same. *)
Lemma trials_spec (n : nat) (B : num) (safe_count : Z) (g : rng gen) :
  match trials lm gen sb n B safe_count g with
  | Ok (cnt, g') =>
      cnt = safe_count + pass_count lm gen sb n B g
      /\ g' = advance gen (3 * n) g
      /\ forall j, (j < n)%nat -> is_ok (trial lm gen sb B (advance gen (3 * j) g)) = true
  | Raise e =>
      exists j, (j < n)%nat /\ trial lm gen sb B (advance gen (3 * j) g) = Raise e
  end.
Proof.
  revert safe_count g.
  induction n as [| n IH]; intros safe_count g.
  - cbn [trials]. rewrite pass_count_0. repeat split; [lia | intros j Hj; lia].
  - cbn [trials].
    destruct (trial lm gen sb B g) as [[passes g1] | e] eqn:Ht; cbn [bind].
    + pose proof (trial_state _ _ _ _ Ht) as ->.
      pose proof (passes_at_ok _ _ _ _ Ht) as Hp.
      specialize (IH (if passes then safe_count + 1 else safe_count) (advance gen 3 g)).
      destruct (trials lm gen sb n B (if passes then safe_count + 1 else safe_count)
                  (advance gen 3 g)) as [[cnt g2] | e].
      * destruct IH as [Hc [Hg Hall]]. rewrite pass_count_S, Hp.
        repeat split.
        -- destruct passes; lia.
        -- rewrite Hg, <- advance_add. f_equal. lia.
        -- intros [| j] Hj.
           ++ change (advance gen (3 * 0) g) with g. now rewrite Ht.
           ++ replace (3 * S j)%nat with (3 + 3 * j)%nat by lia.
              rewrite advance_add. apply Hall. lia.
      * destruct IH as [j [Hj He]]. exists (S j). split; [lia | ].
        replace (3 * S j)%nat with (3 + 3 * j)%nat by lia.
        now rewrite advance_add.
    + exists 0%nat. split; [lia | exact Ht].
Qed.

Lemma widths_loop_ok (ws : list num) (acc results : list (num * num)) (g g' : rng gen) :
  widths_loop lm gen sb ws acc g = Ok (results, g') ->
  g' = advance gen (3 * n_iter * List.length ws) g
  /\ exists rs, results = acc ++ rs /\ List.length rs = List.length ws
     /\ forall i B, nth_error ws i = Some B ->
          (forall j, (j < n_iter)%nat ->
             is_ok (trial lm gen sb B (advance gen (3 * (n_iter * i + j)) g)) = true)
          /\ exists pct,
            safety_percent sb (pass_count lm gen sb n_iter B (advance gen (3 * n_iter * i) g))
            = Ok pct
            /\ nth_error rs i = Some (B, pct).
Proof.
  revert acc g.
  induction ws as [| B rest IH]; intros acc g Hw.
  - cbn [widths_loop] in Hw. inversion Hw; subst.
    split; [now rewrite Nat.mul_0_r | ].
    exists []. rewrite app_nil_r. repeat split;
      destruct i; discriminate.
  - cbn [widths_loop] in Hw.
    pose proof (trials_spec n_iter B 0 g) as Ht.
    destruct (trials lm gen sb n_iter B 0 g) as [[cnt g1] | e]; cbn [bind] in Hw;
      [ | discriminate].
    destruct Ht as [Hc [Hg Hall]]. rewrite Z.add_0_l in Hc. subst cnt g1.
    destruct (safety_percent sb (pass_count lm gen sb n_iter B g)) as [pct | e] eqn:Hs;
      cbn [bind] in Hw; [ | discriminate].
    apply IH in Hw. destruct Hw as [Hg [rs [Hr [Hl Hi]]]].
    split.
    + rewrite Hg, <- advance_add. f_equal. cbn [List.length]. lia.
    + exists ((B, pct) :: rs). split; [ | split].
      * rewrite Hr, <- app_assoc. reflexivity.
      * cbn [List.length]. now rewrite Hl.
      * intros [| i] B0 Hn.
        -- cbn [nth_error] in Hn. inversion Hn; subst B0. split.
           ++ intros j Hj. rewrite Nat.mul_0_r, Nat.add_0_l. now apply Hall.
           ++ exists pct. rewrite Nat.mul_0_r. cbn [advance nth_error]. now split.
        -- cbn [nth_error] in Hn. destruct (Hi i B0 Hn) as [Hok [pct' [Hp Hn']]]. split.
           ++ intros j Hj. specialize (Hok j Hj). rewrite <- advance_add in Hok.
              replace (3 * (n_iter * S i + j))%nat
                with (3 * n_iter + 3 * (n_iter * i + j))%nat by lia.
              exact Hok.
           ++ exists pct'. rewrite <- advance_add in Hp.
              replace (3 * n_iter * S i)%nat with (3 * n_iter + 3 * n_iter * i)%nat by lia.
              now split.
Qed.

Lemma widths_loop_raise (ws : list num) (acc : list (num * num)) (g : rng gen) (e : exn) :
  widths_loop lm gen sb ws acc g = Raise e ->
  exists i B, nth_error ws i = Some B
    /\ ((exists j, (j < n_iter)%nat
           /\ trial lm gen sb B (advance gen (3 * (n_iter * i + j)) g) = Raise e)
        \/ safety_percent sb (pass_count lm gen sb n_iter B (advance gen (3 * n_iter * i) g))
           = Raise e).
Proof.
  revert acc g.
  induction ws as [| B rest IH]; intros acc g Hw.
  - discriminate.
  - cbn [widths_loop] in Hw.
    pose proof (trials_spec n_iter B 0 g) as Ht.
    destruct (trials lm gen sb n_iter B 0 g) as [[cnt g1] | e1]; cbn [bind] in Hw.
    + destruct Ht as [Hc [Hg _]]. rewrite Z.add_0_l in Hc. subst cnt g1.
      destruct (safety_percent sb (pass_count lm gen sb n_iter B g)) as [pct | e2] eqn:Hs;
        cbn [bind] in Hw.
      * apply IH in Hw. destruct Hw as [i [B0 [Hn Hcase]]].
        exists (S i), B0. split; [exact Hn | ].
        destruct Hcase as [[j [Hj He]] | He].
        -- left. exists j. split; [exact Hj | ].
           rewrite <- advance_add in He.
           replace (3 * (n_iter * S i + j))%nat
             with (3 * n_iter + 3 * (n_iter * i + j))%nat by lia.
           exact He.
        -- right. rewrite <- advance_add in He.
           replace (3 * n_iter * S i)%nat with (3 * n_iter + 3 * n_iter * i)%nat by lia.
           exact He.
      * inversion Hw; subst e2. exists 0%nat, B. split; [reflexivity | ].
        right. rewrite Nat.mul_0_r. exact Hs.
    + inversion Hw; subst e1. destruct Ht as [j [Hj He]].
      exists 0%nat, B. split; [reflexivity | ].
      left. exists j. split; [exact Hj | ].
      now rewrite Nat.mul_0_r, Nat.add_0_l.
Qed.

Lemma results_of_ok (r : result (list (num * num) * rng gen)) (results : list (num * num)) :
  results_of gen r = Ok results -> exists g', r = Ok (results, g').
Proof.
  destruct r as [[rs g'] | e]; cbn; intros Hr; inversion Hr; eauto.
Qed.

Lemma safety_percent_ok (cnt : Z) :
  1 <= Sidebar.iterations sb -> 0 <= cnt <= Sidebar.iterations sb ->
  safety_percent sb cnt = Ok (Flt (percent_of cnt (Sidebar.iterations sb))).
Proof.
  intros Hi Hc. unfold safety_percent, percent_of.
  cbn [truediv]. unfold int_truediv.
  pose proof overflow_bound_gt_1 as Hob.
  destruct (Z.eqb_spec (Sidebar.iterations sb) 0) as [H0 | _]; [lia | ].
  destruct (Z.leb_spec (overflow_bound * Z.abs (Sidebar.iterations sb)) (Z.abs cnt))
    as [Hov | _]; [nia | ].
  destruct (Z.ltb_spec cnt 0) as [Hn | _]; [lia | ].
  destruct (Z.ltb_spec (Sidebar.iterations sb) 0) as [Hn | _]; [lia | ].
  cbn [xorb bind mul float_binop to_float].
  rewrite int_to_float_100. cbn [bind].
  rewrite !Z.abs_eq by lia. reflexivity.
Qed.

(** C2.  With [iterations >= 1] the study either returns or raises what a
    trial raised.  When it returns, there is one result per width in the
    order of the width list; the trials of the width at index [i] are the
    [iterations] trials that start after [3 * iterations * i] values of the
    generator, [3 * iterations * len] values are consumed in all, and the
    percentage is [(passCount / iterations) * 100] in binary64, with
    [passCount] the number of those trials that pass. *)
Theorem C2_one_result_per_width (ws : list num) (g : rng gen) :
  1 <= Sidebar.iterations sb ->
  (forall results g',
      widths_loop lm gen sb ws [] g = Ok (results, g') ->
      map fst results = ws
      /\ g' = advance gen (3 * n_iter * List.length ws) g
      /\ forall i B, nth_error ws i = Some B ->
           nth_error results i
           = Some (B, Flt (percent_of
                             (pass_count lm gen sb n_iter B (advance gen (3 * n_iter * i) g))
                             (Sidebar.iterations sb))))
  /\ (forall e,
      widths_loop lm gen sb ws [] g = Raise e ->
      exists i j B, nth_error ws i = Some B /\ (j < n_iter)%nat
        /\ trial lm gen sb B (advance gen (3 * (n_iter * i + j)) g) = Raise e).
Proof.
  intros Hi.
  assert (Hpc : forall B g0,
             safety_percent sb (pass_count lm gen sb n_iter B g0)
             = Ok (Flt (percent_of (pass_count lm gen sb n_iter B g0) (Sidebar.iterations sb)))).
  { intros B g0. apply safety_percent_ok; [exact Hi | ].
    pose proof (pass_count_bounds n_iter B g0). lia. }
  split; [intros results g' Hw | intros e Hw].
  - apply widths_loop_ok in Hw. destruct Hw as [Hg [rs [Hr [Hl Hn]]]].
    cbn [app] in Hr. subst rs.
    assert (Hnth : forall i B, nth_error ws i = Some B ->
               nth_error results i
               = Some (B, Flt (percent_of
                                 (pass_count lm gen sb n_iter B (advance gen (3 * n_iter * i) g))
                                 (Sidebar.iterations sb)))).
    { intros i B HB. destruct (Hn i B HB) as [_ [pct [Hp Hr]]].
      rewrite Hpc in Hp. inversion Hp; subst pct. exact Hr. }
    repeat split; [ | exact Hg | exact Hnth].
    apply nth_error_ext. intros i. rewrite nth_error_map.
    destruct (nth_error ws i) as [B | ] eqn:HB.
    + now rewrite (Hnth i B HB).
    + apply nth_error_None in HB. rewrite <- Hl in HB.
      apply nth_error_None in HB. now rewrite HB.
  - apply widths_loop_raise in Hw. destruct Hw as [i [B [HB [[j [Hj He]] | He]]]].
    + now exists i, j, B.
    + rewrite Hpc in He. discriminate.
Qed.

(** *** Same values drawn, same results *)

Lemma trials_same_draws (n : nat) (B : num) (safe_count : Z) (g g' : rng gen) :
  (forall k, (k < 3 * n)%nat -> draw gen k g = draw gen k g') ->
  match trials lm gen sb n B safe_count g, trials lm gen sb n B safe_count g' with
  | Ok (c1, _), Ok (c2, _) => c1 = c2
  | Raise e1, Raise e2 => e1 = e2
  | _, _ => False
  end.
Proof.
  revert safe_count g g'.
  induction n as [| n IH]; intros safe_count g g' Hd.
  - reflexivity.
  - cbn [trials]. rewrite !trial_draws.
    rewrite <- (Hd 0%nat), <- (Hd 1%nat), <- (Hd 2%nat) by lia.
    destruct (trial_with lm sb B (draw gen 0 g) (draw gen 1 g) (draw gen 2 g))
      as [b | e]; cbn [bind]; [ | reflexivity].
    apply IH. intros k Hk. rewrite !draw_advance. apply Hd. lia.
Qed.

Lemma widths_same_draws (ws : list num) (acc : list (num * num)) (g g' : rng gen) :
  (forall k, (k < 3 * n_iter * List.length ws)%nat -> draw gen k g = draw gen k g') ->
  results_of gen (widths_loop lm gen sb ws acc g)
  = results_of gen (widths_loop lm gen sb ws acc g').
Proof.
  revert acc g g'.
  induction ws as [| B rest IH]; intros acc g g' Hd.
  - reflexivity.
  - cbn [widths_loop].
    assert (Hd0 : forall k, (k < 3 * n_iter)%nat -> draw gen k g = draw gen k g').
    { intros k Hk. apply Hd. cbn [List.length]. nia. }
    pose proof (trials_same_draws n_iter B 0 g g' Hd0) as Hsame.
    pose proof (trials_spec n_iter B 0 g) as Hs.
    pose proof (trials_spec n_iter B 0 g') as Hs'.
    destruct (trials lm gen sb n_iter B 0 g) as [[c1 g1] | e1];
      destruct (trials lm gen sb n_iter B 0 g') as [[c2 g2] | e2];
      cbn [bind]; try contradiction.
    + subst c2. destruct Hs as [_ [-> _]]. destruct Hs' as [_ [-> _]].
      destruct (safety_percent sb c1) as [pct | e]; cbn [bind]; [ | reflexivity].
      apply IH. intros k Hk. rewrite !draw_advance. apply Hd.
      cbn [List.length]. nia.
    + now subst e2.
Qed.

(** C3.  The study is a function of the values the generator returns: two
    runs whose generators return the same first [3 * iterations * len]
    values (two runs from one seed in particular) give the same results, or
    raise the same exception, with the same sidebar and width list.  Each
    trial takes three values, the first for the unit weight, the second
    for the modulus and the third for the load. *)
Theorem C3_same_draws_same_results (ws : list num) (g g' : rng gen) :
  draws gen (3 * n_iter * List.length ws) g = draws gen (3 * n_iter * List.length ws) g' ->
  results_of gen (widths_loop lm gen sb ws [] g)
  = results_of gen (widths_loop lm gen sb ws [] g')
  /\ (forall g0 : rng gen,
        sample gen sb g0
        = (s <- samples_with sb (draw gen 0 g0) (draw gen 1 g0) (draw gen 2 g0) ;;
           Ok (s, advance gen 3 g0)))
  /\ (forall (u_gamma u_Es u_P : float),
        samples_with sb u_gamma u_Es u_P
        = (gamma_r <- perturbed_with (Sidebar.gamma sb) (Sidebar.g_var sb) u_gamma ;;
           Es_r <- perturbed_with (Sidebar.Es sb) (Sidebar.Es_var sb) u_Es ;;
           P_r <- perturbed_with (Sidebar.P sb) (Sidebar.P_var sb) u_P ;;
           Ok (gamma_r, Es_r, P_r))).
Proof.
  intros Hd. split; [ | split].
  - apply widths_same_draws. now apply draws_agree.
  - exact sample_draws.
  - reflexivity.
Qed.

(** C4, amended.  The pair produced for a width depends on the width and on
    its index in the list, and on nothing else in the list: two completed
    runs from the same generator state whose lists hold the same width at
    the same index produce the same pair there, computed from the trials
    that start after [3 * iterations * index] values. *)
Theorem C4_result_depends_on_position
  (ws ws' : list num) (i : nat) (B : num) (g : rng gen)
  (results results' : list (num * num)) :
  nth_error ws i = Some B ->
  nth_error ws' i = Some B ->
  results_of gen (widths_loop lm gen sb ws [] g) = Ok results ->
  results_of gen (widths_loop lm gen sb ws' [] g) = Ok results' ->
  nth_error results i = nth_error results' i
  /\ exists pct,
       nth_error results i = Some (B, pct)
       /\ safety_percent sb (pass_count lm gen sb n_iter B (advance gen (3 * n_iter * i) g))
          = Ok pct.
Proof.
  intros Hn Hn' Hw Hw'.
  apply results_of_ok in Hw. destruct Hw as [g1 Hw].
  apply results_of_ok in Hw'. destruct Hw' as [g2 Hw'].
  apply widths_loop_ok in Hw. destruct Hw as [_ [rs [Hr [_ Hi]]]].
  apply widths_loop_ok in Hw'. destruct Hw' as [_ [rs' [Hr' [_ Hi']]]].
  cbn [app] in Hr, Hr'. subst rs rs'.
  destruct (Hi i B Hn) as [_ [pct [Hp Hres]]].
  destruct (Hi' i B Hn') as [_ [pct' [Hp' Hres']]].
  rewrite Hp in Hp'. inversion Hp'; subst pct'.
  split; [now rewrite Hres, Hres' | ].
  exists pct. now split.
Qed.

(** *** No iterations, no widths *)




(** *** Zero uncertainty *)

Lemma zero_band :
  truediv (Int 0) (Int 100) = Ok (Flt 0)
  /\ sub (Int 1) (Flt 0) = Ok (Flt 1)
  /\ add (Int 1) (Flt 0) = Ok (Flt 1)
  /\ sub (Flt 1) (Flt 1) = Ok (Flt (1 - 1)).
Proof. repeat split; vm_compute; reflexivity. Qed.

Lemma perturbed_with_zero (x : num) (u : float) :
  unit_interval u = true ->
  perturbed_with x (Int 0) u = (f <- to_float x ;; Ok (Flt f)).
Proof.
  intros Hu. unfold perturbed_with.
  destruct zero_band as [H1 [H2 [H3 H4]]].
  rewrite H1. cbn [bind]. rewrite H2. cbn [bind]. rewrite H3. cbn [bind].
  rewrite H4. cbn [bind mul float_binop to_float add].
  rewrite (degenerate_uniform u Hu).
  destruct x as [z | f]; unfold mul, float_binop; cbn [to_float bind].
  - destruct (int_to_float z) as [f | e]; cbn [bind]; [ | reflexivity].
    now rewrite mul_one_r.
  - now rewrite mul_one_r.
Qed.

Lemma trial_with_zero (B : num) (u1 u2 u3 : float) :
  Sidebar.g_var sb = Int 0 -> Sidebar.P_var sb = Int 0 -> Sidebar.Es_var sb = Int 0 ->
  unit_interval u1 = true -> unit_interval u2 = true -> unit_interval u3 = true ->
  samples_with sb u1 u2 u3
  = (fg <- to_float (Sidebar.gamma sb) ;;
     fe <- to_float (Sidebar.Es sb) ;;
     fp <- to_float (Sidebar.P sb) ;;
     Ok (Flt fg, Flt fe, Flt fp))
  /\ trial_with lm sb B u1 u2 u3 = nominal_passes lm sb B.
Proof.
  intros Hg Hp He H1 H2 H3.
  unfold trial_with, nominal_passes, samples_with. rewrite Hg, Hp, He.
  rewrite !perturbed_with_zero by assumption.
  destruct (to_float (Sidebar.gamma sb)) as [fg | e]; cbn [bind]; [ | now split].
  destruct (to_float (Sidebar.Es sb)) as [fe | e]; cbn [bind]; [ | now split].
  destruct (to_float (Sidebar.P sb)) as [fp | e]; cbn [bind]; now split.
Qed.

(** C10.  With the three uncertainty sliders at [0], [iterations >= 1] and
    a generator whose values lie in [0, 1): every sample of every trial is
    the nominal value (as a float), every trial of a width has the outcome
    of the evaluation at the nominal values, and the study either stores,
    for each width, exactly [0.0] or exactly [100.0] according to that
    outcome, or raises what the nominal evaluation of some width raises. *)
Theorem C10_zero_uncertainty (ws : list num) (g : rng gen) :
  Sidebar.g_var sb = Int 0 -> Sidebar.P_var sb = Int 0 -> Sidebar.Es_var sb = Int 0 ->
  1 <= Sidebar.iterations sb ->
  forallb unit_interval (draws gen (3 * n_iter * List.length ws) g) = true ->
  (forall i j B, nth_error ws i = Some B -> (j < n_iter)%nat ->
     let g0 := advance gen (3 * (n_iter * i + j)) g in
     sample gen sb g0
     = (fg <- to_float (Sidebar.gamma sb) ;;
        fe <- to_float (Sidebar.Es sb) ;;
        fp <- to_float (Sidebar.P sb) ;;
        Ok (Flt fg, Flt fe, Flt fp, advance gen 3 g0))
     /\ trial lm gen sb B g0 = (b <- nominal_passes lm sb B ;; Ok (b, advance gen 3 g0)))
  /\ (forall results g',
        widths_loop lm gen sb ws [] g = Ok (results, g') ->
        Forall2 (fun B r => exists b : bool,
                     nominal_passes lm sb B = Ok b
                     /\ r = (B, Flt (if b then 100 else 0)%float)) ws results)
  /\ (forall e,
        widths_loop lm gen sb ws [] g = Raise e ->
        exists B, In B ws /\ nominal_passes lm sb B = Raise e).
Proof.
  intros Hg Hp He Hi Hall.
  pose proof (draws_in_unit _ _ Hall) as Hd.
  assert (Htrial : forall i j B, nth_error ws i = Some B -> (j < n_iter)%nat ->
            let g0 := advance gen (3 * (n_iter * i + j)) g in
            sample gen sb g0
            = (fg <- to_float (Sidebar.gamma sb) ;;
               fe <- to_float (Sidebar.Es sb) ;;
               fp <- to_float (Sidebar.P sb) ;;
               Ok (Flt fg, Flt fe, Flt fp, advance gen 3 g0))
            /\ trial lm gen sb B g0 = (b <- nominal_passes lm sb B ;; Ok (b, advance gen 3 g0))).
  { intros i j B HB Hj g0.
    assert (Hlen : (i < List.length ws)%nat) by (apply nth_error_Some; congruence).
    assert (Hu : forall k, (k < 3)%nat -> unit_interval (draw gen k g0) = true).
    { intros k Hk. unfold g0. rewrite draw_advance. apply Hd. nia. }
    destruct (trial_with_zero B _ _ _ Hg Hp He (Hu 0%nat ltac:(lia)) (Hu 1%nat ltac:(lia))
                (Hu 2%nat ltac:(lia))) as [Hs Ht].
    split.
    - rewrite sample_draws, Hs.
      destruct (to_float (Sidebar.gamma sb)); cbn [bind]; [ | reflexivity].
      destruct (to_float (Sidebar.Es sb)); cbn [bind]; [ | reflexivity].
      destruct (to_float (Sidebar.P sb)); cbn [bind]; reflexivity.
    - rewrite trial_draws, Ht. reflexivity. }
  split; [exact Htrial | ].
  assert (Hn1 : (1 <= n_iter)%nat) by lia.
  split; [intros results g' Hw | intros e Hw].
  - apply widths_loop_ok in Hw. destruct Hw as [_ [rs [Hr [Hl Hn]]]].
    cbn [app] in Hr. subst rs.
    apply Forall2_of_nth_error; [exact Hl | ].
    intros i B HB.
    destruct (Hn i B HB) as [Hok [pct [Hpct Hres]]].
    exists (B, pct). split; [exact Hres | ].
    destruct (nominal_passes lm sb B) as [b | e] eqn:Hnom.
    + exists b. split; [reflexivity | ].
      assert (Hc : pass_count lm gen sb n_iter B (advance gen (3 * n_iter * i) g)
                   = if b then Z.of_nat n_iter else 0).
      { apply pass_count_constant. intros j Hj. rewrite <- advance_add.
        replace (3 * n_iter * i + 3 * j)%nat with (3 * (n_iter * i + j))%nat by lia.
        unfold passes_at. destruct (Htrial i j B HB Hj) as [_ ->]. rewrite Hnom.
        cbn [bind]. now destruct b. }
      rewrite Hc in Hpct.
      rewrite safety_percent_ok in Hpct by (destruct b; lia).
      inversion Hpct. f_equal. f_equal.
      destruct b.
      * rewrite Z2Nat.id by lia. apply percent_full. exact Hi.
      * apply percent_none.
    + exfalso.
      specialize (Hok 0%nat ltac:(lia)).
      destruct (Htrial i 0%nat B HB ltac:(lia)) as [_ Ht0].
      cbn zeta in Ht0. rewrite Ht0, Hnom in Hok. discriminate.
  - apply widths_loop_raise in Hw. destruct Hw as [i [B [HB [[j [Hj Hex]] | Hex]]]].
    + exists B. split; [eapply nth_error_In; exact HB | ].
      destruct (Htrial i j B HB Hj) as [_ Ht]. cbn zeta in Ht.
      rewrite Ht in Hex.
      destruct (nominal_passes lm sb B) as [b | e0]; cbn [bind] in Hex;
        [discriminate | now inversion Hex].
    + exfalso.
      pose proof (pass_count_bounds n_iter B (advance gen (3 * n_iter * i) g)) as Hb.
      rewrite safety_percent_ok in Hex by lia. discriminate.
Qed.

End LoopFacts.

(* ------------------------------------------------------------------ *)
(** ** Closed evaluations on the Mersenne Twister, seed 42             *)
(* ------------------------------------------------------------------ *)

(** C2 at 50 iterations and the widths [1.5, 2.0]. *)
Lemma C2_two_widths_fifty_trials :
  let sb := sliding_case "1.5,2.0" 50 in
  let ws := [Flt 1.5; Flt 2] in
  let g := MT19937.Random 42 in
  let n := Z.to_nat (Sidebar.iterations sb) in
  1 <= Sidebar.iterations sb
  /\ widths_loop libm_failing mersenne_twister sb ws [] g
     = Ok ([(Flt 1.5, Flt 52); (Flt 2, Flt 48)], advance mersenne_twister 300 g)
  /\ (forall results g',
        widths_loop libm_failing mersenne_twister sb ws [] g = Ok (results, g') ->
        map fst results = ws
        /\ g' = advance mersenne_twister (3 * n * List.length ws) g
        /\ forall i B, nth_error ws i = Some B ->
             nth_error results i
             = Some (B, Flt (percent_of
                               (pass_count libm_failing mersenne_twister sb n B
                                  (advance mersenne_twister (3 * n * i) g))
                               (Sidebar.iterations sb)))).
Proof.
  intros sb ws g n.
  assert (Hi : 1 <= Sidebar.iterations sb) by (apply Z.leb_le; reflexivity).
  split; [exact Hi | ].
  split; [vm_compute; reflexivity | ].
  exact (proj1 (C2_one_result_per_width libm_failing mersenne_twister sb ws g Hi)).
Defined.

(** C3 on two different states of the twister that return the same
    values: the state seeded with 42, and that state with its first block
    regenerated beforehand. *)
Lemma C3_regenerated_state_same_results :
  let sb := sliding_case "1.5,2.0" 2 in
  let ws := [Flt 1.5; Flt 2] in
  let g := MT19937.Random 42 in
  let g' := seed42_regenerated in
  let n := (3 * Z.to_nat (Sidebar.iterations sb) * List.length ws)%nat in
  MT19937.index g <> MT19937.index g'
  /\ draws mersenne_twister n g = draws mersenne_twister n g'
  /\ results_of mersenne_twister (widths_loop libm_failing mersenne_twister sb ws [] g)
     = results_of mersenne_twister (widths_loop libm_failing mersenne_twister sb ws [] g').
Proof.
  intros sb ws g g' n.
  assert (Hd : draws mersenne_twister n g = draws mersenne_twister n g')
    by (vm_compute; reflexivity).
  split; [discriminate | ].
  split; [exact Hd | ].
  exact (proj1 (C3_same_draws_same_results libm_failing mersenne_twister sb ws g g' Hd)).
Defined.

(** C4, as stated, fails: with 50 iterations, width [2.0] alone gets 52
    percent, and 48 percent once [1.5] stands before it in the list. *)
Lemma C4_pair_changes_with_list :
  run_full_design libm_failing mersenne_twister (sliding_case "2.0" 50)
  = Stored [(Flt 2, Flt 52)]
  /\ run_full_design libm_failing mersenne_twister (sliding_case "1.5,2.0" 50)
     = Stored [(Flt 1.5, Flt 52); (Flt 2, Flt 48)]
  /\ (Flt 2, Flt 52) <> (Flt 2, Flt 48).
Proof.
  split; [vm_compute; reflexivity | ].
  split; [vm_compute; reflexivity | ].
  discriminate.
Qed.

(** C4, amended, at index 1 of the lists [1.5, 2.0] and [2.5, 2.0]. *)
Lemma C4_same_index_same_pair :
  let sb := sliding_case "" 50 in
  let ws := [Flt 1.5; Flt 2] in
  let ws' := [Flt 2.5; Flt 2] in
  let g := MT19937.Random 42 in
  let results := [(Flt 1.5, Flt 52); (Flt 2, Flt 48)] in
  let results' := [(Flt 2.5, Flt 52); (Flt 2, Flt 48)] in
  nth_error ws 1 = Some (Flt 2)
  /\ nth_error ws' 1 = Some (Flt 2)
  /\ results_of mersenne_twister (widths_loop libm_failing mersenne_twister sb ws [] g)
     = Ok results
  /\ results_of mersenne_twister (widths_loop libm_failing mersenne_twister sb ws' [] g)
     = Ok results'
  /\ nth_error results 1 = nth_error results' 1
  /\ exists pct,
       nth_error results 1 = Some (Flt 2, pct)
       /\ safety_percent sb
            (pass_count libm_failing mersenne_twister sb (Z.to_nat (Sidebar.iterations sb))
               (Flt 2)
               (advance mersenne_twister (3 * Z.to_nat (Sidebar.iterations sb) * 1) g))
          = Ok pct.
Proof.
  intros sb ws ws' g results results'.
  assert (H1 : nth_error ws 1 = Some (Flt 2)) by reflexivity.
  assert (H2 : nth_error ws' 1 = Some (Flt 2)) by reflexivity.
  assert (H3 : results_of mersenne_twister
                 (widths_loop libm_failing mersenne_twister sb ws [] g) = Ok results)
    by (vm_compute; reflexivity).
  assert (H4 : results_of mersenne_twister
                 (widths_loop libm_failing mersenne_twister sb ws' [] g) = Ok results')
    by (vm_compute; reflexivity).
  split; [exact H1 | ]. split; [exact H2 | ]. split; [exact H3 | ]. split; [exact H4 | ].
  exact (C4_result_depends_on_position libm_failing mersenne_twister sb ws ws' 1 (Flt 2) g
           results results' H1 H2 H3 H4).
Defined.


Example no_valid_width_is_reported :
  run_full_design libm_failing mersenne_twister (sliding_case "abc,," 50) = InvalidBList
  /\ run_full_design libm_failing mersenne_twister (sliding_case "" 50) = InvalidBList.
Proof. split; vm_compute; reflexivity. Qed.

(** C10 at 2 iterations and the widths [0.5, 2.0]: the narrow footing
    fails at the nominal values, the wide one passes. *)
Lemma C10_certain_case_all_or_nothing :
  let sb := certain_case "0.5,2.0" 2 in
  let ws := [Flt 0.5; Flt 2] in
  let g := MT19937.Random 42 in
  let n := Z.to_nat (Sidebar.iterations sb) in
  Sidebar.g_var sb = Int 0 /\ Sidebar.P_var sb = Int 0 /\ Sidebar.Es_var sb = Int 0
  /\ 1 <= Sidebar.iterations sb
  /\ forallb unit_interval (draws mersenne_twister (3 * n * List.length ws) g) = true
  /\ results_of mersenne_twister (widths_loop libm_failing mersenne_twister sb ws [] g)
     = Ok [(Flt 0.5, Flt 0); (Flt 2, Flt 100)]
  /\ (forall results g',
        widths_loop libm_failing mersenne_twister sb ws [] g = Ok (results, g') ->
        Forall2 (fun B r => exists b : bool,
                     nominal_passes libm_failing sb B = Ok b
                     /\ r = (B, Flt (if b then 100 else 0)%float)) ws results).
Proof.
  intros sb ws g n.
  assert (Hi : 1 <= Sidebar.iterations sb) by (apply Z.leb_le; reflexivity).
  assert (Hd : forallb unit_interval (draws mersenne_twister (3 * n * List.length ws) g) = true)
    by (vm_compute; reflexivity).
  split; [reflexivity | ]. split; [reflexivity | ]. split; [reflexivity | ].
  split; [exact Hi | ]. split; [exact Hd | ].
  split; [vm_compute; reflexivity | ].
  exact (proj1 (proj2 (C10_zero_uncertainty libm_failing mersenne_twister sb ws g
                         eq_refl eq_refl eq_refl Hi Hd))).
Defined.

Example certain_case_results :
  run_full_design libm_failing mersenne_twister (certain_case "0.5,2.0" 50)
  = Stored [(Flt 0.5, Flt 0); (Flt 2, Flt 100)].
Proof. vm_compute. reflexivity. Qed.

(* ================================================================== *)
(** * Further facts                                                     *)
(* ================================================================== *)

(* ------------------------------------------------------------------ *)
(** ** The guards of the formula library on floats                      *)
(* ------------------------------------------------------------------ *)

Lemma pow2_pos (e : Z) : 0 <= e -> 0 < 2 ^ e.
Proof. intros He. apply Z.pow_pos_nonneg; lia. Qed.

(** The exact comparison of a float with the int [0] agrees with the IEEE
    tests that float division and ordering use. *)
Lemma ne_float_zero (f : float) : ne (Flt f) (Int 0) = negb (f =? 0)%float.
Proof.
  unfold ne, cmp, cmp_int_float. rewrite eqb_spec.
  change (Prim2SF 0%float) with (S754_zero false).
  destruct (Prim2SF f) as [s | s | | s m e]; try reflexivity.
  - destruct s; reflexivity.
  - destruct (Z.leb_spec 0 e) as [He | He]; cbn [option_map].
    + pose proof (pow2_pos e He) as Hp.
      destruct s; cbn [SFeqb SFcompare negb].
      * destruct (Z.compare_spec 0 (Z.neg m * 2 ^ e)) as [Hc | Hc | Hc]; try reflexivity; nia.
      * destruct (Z.compare_spec 0 (Z.pos m * 2 ^ e)) as [Hc | Hc | Hc]; try reflexivity; nia.
    + destruct s; reflexivity.
Qed.

Lemma gt_float_zero (f : float) : gt (Flt f) (Int 0) = (0 <? f)%float.
Proof.
  unfold gt, cmp, cmp_int_float. rewrite ltb_spec.
  change (Prim2SF 0%float) with (S754_zero false).
  destruct (Prim2SF f) as [s | s | | s m e]; try reflexivity.
  - destruct s; reflexivity.
  - destruct (Z.leb_spec 0 e) as [He | He]; cbn [option_map].
    + pose proof (pow2_pos e He) as Hp.
      destruct s; cbn [SFltb SFcompare].
      * destruct (Z.compare_spec 0 (Z.neg m * 2 ^ e)) as [Hc | Hc | Hc]; try reflexivity; nia.
      * destruct (Z.compare_spec 0 (Z.pos m * 2 ^ e)) as [Hc | Hc | Hc]; try reflexivity; nia.
    + destruct s; reflexivity.
Qed.

(** X1.  On floats [sliding_fs] never raises: the guard [H != 0] holds
    exactly when the division by [H] is defined, so the result is the int
    sentinel [999] when [H] is a zero and the float [P * mu / H] otherwise
    (an infinity or a NaN included). *)
Theorem X1_sliding_fs_on_floats (P H mu : float) :
  sliding_fs (Flt P) (Flt H) (Flt mu)
  = if (H =? 0)%float then Ok (Int 999) else Ok (Flt (P * mu / H)%float).
Proof.
  unfold sliding_fs. rewrite ne_float_zero.
  destruct (H =? 0)%float eqn:HH; cbn [negb]; [reflexivity | ].
  cbn [mul float_binop to_float bind truediv].
  change PrimFloat.zero with 0%float. now rewrite HH.
Qed.

(** X2.  On floats [overturning_fs] never raises: it returns the sentinel
    [999] when [M] is a zero and the float [P * (B / 2) / M] otherwise. *)
Theorem X2_overturning_fs_on_floats (P B M : float) :
  overturning_fs (Flt P) (Flt B) (Flt M)
  = if (M =? 0)%float then Ok (Int 999) else Ok (Flt (P * (B / 2) / M)%float).
Proof.
  unfold overturning_fs. rewrite ne_float_zero.
  change (truediv (Flt B) (Int 2)) with (Ok (Flt (B / 2)%float)).
  cbn [bind mul float_binop to_float].
  destruct (M =? 0)%float eqn:HM; cbn [negb]; [reflexivity | ].
  cbn [truediv to_float bind].
  change PrimFloat.zero with 0%float. now rewrite HM.
Qed.

(** X3.  A friction angle that is not above zero (zero, negative or NaN)
    takes the cohesive branch of [bearing_capacity_q_ult]: [Nq = 1],
    [Ngamma = 0], no call into the C library and no error, with the result
    [c * 5.14 + gamma * Df * 1 + 0.5 * gamma * B * 0]. *)
Theorem X3_nonpositive_angle_is_cohesive (lm : libm) (c gamma Df B phi : float) :
  (0 <? phi)%float = false ->
  bearing_factors lm (Flt phi) (Flt (phi * (3.141592653589793 / 180))%float) = Ok (Int 1, Int 0)
  /\ bearing_capacity_q_ult lm (Flt c) (Flt gamma) (Flt Df) (Flt B) (Flt phi)
     = Ok (Flt (c * 5.14 + gamma * Df * 1 + 0.5 * gamma * B * 0)%float).
Proof.
  intros Hphi.
  unfold bearing_capacity_q_ult, bearing_factors.
  cbn [math_radians to_float bind]. rewrite gt_float_zero, Hphi.
  split; reflexivity.
Qed.

Lemma X3_negative_and_nan_angles :
  ((0 <? -10)%float = false
   /\ bearing_factors libm_failing (Flt (-10))
        (Flt (-10 * (3.141592653589793 / 180))%float) = Ok (Int 1, Int 0)
   /\ bearing_capacity_q_ult libm_failing (Flt 20) (Flt 18) (Flt 1) (Flt 2) (Flt (-10))
      = Ok (Flt (20 * 5.14 + 18 * 1 * 1 + 0.5 * 18 * 2 * 0)%float))
  /\ bearing_capacity_q_ult libm_failing (Flt 20) (Flt 18) (Flt 1) (Flt 2) (Flt nan)
     = Ok (Flt 120.8).
Proof.
  split; [ | vm_compute; reflexivity].
  split; [reflexivity | ].
  exact (X3_nonpositive_angle_is_cohesive libm_failing 20 18 1 2 (-10) eq_refl).
Defined.

(* ------------------------------------------------------------------ *)
(** ** More on the input parser                                         *)
(* ------------------------------------------------------------------ *)

Lemma split_on_app (sep : ascii) (a b : string) :
  Text.split_on sep (a ++ String sep b) = Text.split_on sep a ++ Text.split_on sep b.
Proof.
  induction a as [| c a IH].
  - cbn. now rewrite Ascii.eqb_refl.
  - cbn [String.append Text.split_on]. rewrite IH.
    destruct (Ascii.eqb c sep); [reflexivity | ].
    pose proof (split_on_nonempty sep a) as Hne.
    destruct (Text.split_on sep a) as [| x xs]; [contradiction | reflexivity].
Qed.

Lemma split_on_length (s : string) :
  List.length (Text.split_on comma s) = S (count_commas s).
Proof.
  induction s as [| c s IH]; [reflexivity | ].
  cbn [Text.split_on count_commas].
  destruct (Ascii.eqb c comma).
  - cbn [List.length]. now rewrite IH.
  - destruct (Text.split_on comma s) as [| x xs]; cbn [List.length] in *; lia.
Qed.

Lemma parsed_rejected_length (toks : list string) :
  (List.length (parsed_numbers toks) + List.length (rejected_tokens toks))%nat
  = List.length toks.
Proof.
  unfold parsed_numbers, rejected_tokens.
  induction toks as [| t toks IH]; [reflexivity | ].
  cbn [flat_map filter]. destruct (Text.py_float t); cbn [is_ok negb app List.length]; lia.
Qed.

Lemma safe_float_list_tokens (text : string) :
  safe_float_list text = (parsed_numbers (tokens text), rejected_tokens (tokens text)).
Proof. unfold safe_float_list. now rewrite safe_float_fold. Qed.

Lemma safe_float_list_app (a b : string) :
  safe_float_list (a ++ String comma b)
  = (fst (safe_float_list a) ++ fst (safe_float_list b),
     snd (safe_float_list a) ++ snd (safe_float_list b)).
Proof.
  rewrite !safe_float_list_tokens. cbn [fst snd].
  unfold tokens. fold comma. rewrite split_on_app, map_app.
  unfold parsed_numbers, rejected_tokens. now rewrite flat_map_app, filter_app.
Qed.

(** X4.  Parsing composes over the comma: the numbers (and the rejected
    tokens) of [a + "," + b] are those of [a] followed by those of [b],
    whatever commas [a] and [b] hold themselves. *)
Theorem X4_parse_composes_over_commas (a b : string) :
  safe_float_list (a ++ String comma b)
  = (fst (safe_float_list a) ++ fst (safe_float_list b),
     snd (safe_float_list a) ++ snd (safe_float_list b)).
Proof. exact (safe_float_list_app a b). Qed.

(** X5.  Every token lands in exactly one of the two lists: the lengths of
    the numbers and of the rejected tokens add up to the number of commas
    plus one.  So the two lists are never both empty: when no number was
    read there is a rejected token (for the empty text, the empty token). *)
Theorem X5_every_token_lands_once (text : string) :
  (List.length (fst (safe_float_list text)) + List.length (snd (safe_float_list text)))%nat
  = S (count_commas text)
  /\ (fst (safe_float_list text) = [] -> snd (safe_float_list text) <> []).
Proof.
  rewrite safe_float_list_tokens. cbn [fst snd].
  assert (Hl : (List.length (parsed_numbers (tokens text))
                + List.length (rejected_tokens (tokens text)))%nat = S (count_commas text)).
  { rewrite parsed_rejected_length. unfold tokens. rewrite length_map.
    apply split_on_length. }
  split; [exact Hl | ].
  intros Hn Hb. rewrite Hn, Hb in Hl. discriminate.
Qed.

Lemma strip_idem (s : string) : Text.strip (Text.strip s) = Text.strip s.
Proof.
  unfold Text.strip.
  destruct (lstrip_by_head Text.is_space s) as [-> | [c [r [-> Hc]]]]; [reflexivity | ].
  destruct (rstrip_by_head Text.is_space c r) as [-> | [r' Hr]]; [reflexivity | ].
  rewrite Hr. cbn [Text.lstrip_by]. rewrite Hc. rewrite <- Hr.
  apply rstrip_by_idem.
Qed.

Lemma string_to_double_error (s : string) (e : exn) :
  Text.string_to_double s = Raise e -> e = ValueError.
Proof.
  unfold Text.string_to_double.
  destruct (Text.take_sign s) as [neg r].
  destruct (Text.scan_decimal r) as [[[D E] rest] | ].
  - destruct rest; intros H; now inversion H.
  - destruct (Text.scan_inf_nan s) as [[f rest] | ].
    + destruct rest; intros H; now inversion H.
    + intros H; now inversion H.
Qed.

Lemma py_float_error (s : string) (e : exn) :
  Text.py_float s = Raise e -> e = ValueError.
Proof.
  unfold Text.py_float.
  destruct (Text.contains _ _).
  - destruct (Text.drop_underscores _ _).
    + apply string_to_double_error.
    + intros H; now inversion H.
  - apply string_to_double_error.
Qed.

(** X6.  Each rejected token is stored stripped (stripping it again
    changes nothing) and is text that [float] refuses with [ValueError];
    each number returned is the value [float] gives to one of the stripped
    tokens of the text. *)
Theorem X6_rejected_tokens_are_stripped_failures (text : string) :
  Forall (fun t => Text.strip t = t /\ Text.py_float t = Raise ValueError)
         (snd (safe_float_list text))
  /\ Forall (fun f => exists t, In t (tokens text) /\ Text.py_float t = Ok f)
            (fst (safe_float_list text)).
Proof.
  rewrite safe_float_list_tokens. cbn [fst snd]. split.
  - apply Forall_forall. intros t Ht.
    unfold rejected_tokens in Ht. apply filter_In in Ht. destruct Ht as [Hin Hrej].
    split.
    + unfold tokens in Hin. apply in_map_iff in Hin. destruct Hin as [x [<- _]].
      apply strip_idem.
    + destruct (Text.py_float t) as [f | e] eqn:Hp; [discriminate | ].
      now rewrite (py_float_error t e Hp).
  - apply Forall_forall. intros f Hf.
    unfold parsed_numbers in Hf. apply in_flat_map in Hf. destruct Hf as [t [Hin Hf]].
    exists t. split; [exact Hin | ].
    destruct (Text.py_float t) as [f0 | e]; [ | contradiction].
    destruct Hf as [-> | []]. reflexivity.
Qed.

Lemma split_blank (s : string) :
  is_blank s = true ->
  Forall (fun p => Text.lstrip_by Text.is_space p = EmptyString) (Text.split_on comma s).
Proof.
  induction s as [| c s IH]; intros Hb.
  - repeat constructor.
  - cbn [is_blank] in Hb. apply andb_prop in Hb. destruct Hb as [Hc Hs].
    specialize (IH Hs). cbn [Text.split_on].
    destruct (Ascii.eqb c comma) eqn:Hcomma.
    + constructor; [reflexivity | exact IH].
    + rewrite orb_false_r in Hc.
      destruct (Text.split_on comma s) as [| x xs].
      * constructor; [ | constructor]. cbn [Text.lstrip_by]. now rewrite Hc.
      * inversion IH; subst. constructor; [ | assumption].
        cbn [Text.lstrip_by]. now rewrite Hc.
Qed.

Lemma blank_parses_nothing (text : string) :
  is_blank text = true -> fst (safe_float_list text) = [].
Proof.
  intros Hb. rewrite safe_float_list_tokens. cbn [fst].
  pose proof (split_blank text Hb) as Hall. unfold tokens. fold comma.
  induction Hall as [| p ps Hp _ IH]; [reflexivity | ].
  cbn [map]. unfold parsed_numbers in *. cbn [flat_map].
  unfold Text.strip at 1. rewrite Hp. cbn [Text.rstrip_by].
  change (Text.py_float EmptyString) with (@Raise float ValueError).
  exact IH.
Qed.

Section Handler.

Variable lm : libm.
Variable gen : generator.
Variable sb : Sidebar.t.

Lemma run_full_design_numbers (t1 t2 : string) :
  fst (safe_float_list t1) = fst (safe_float_list t2) ->
  run_full_design lm gen (with_B_text sb t1) = run_full_design lm gen (with_B_text sb t2).
Proof.
  unfold run_full_design. cbn [with_B_text Sidebar.B_text Sidebar.seed].
  destruct (safe_float_list t1) as [n1 b1]. destruct (safe_float_list t2) as [n2 b2].
  cbn [fst]. intros ->. reflexivity.
Qed.

(** X7.  A width text made of whitespace and commas only (the empty text
    included) is reported with "Invalid B list!": no study runs, whatever
    the other inputs are. *)
Theorem X7_blank_text_is_invalid :
  is_blank (Sidebar.B_text sb) = true -> run_full_design lm gen sb = InvalidBList.
Proof.
  intros Hb. pose proof (blank_parses_nothing _ Hb) as Hn.
  unfold run_full_design.
  destruct (safe_float_list (Sidebar.B_text sb)) as [B_list bad].
  cbn [fst] in Hn. now subst B_list.
Qed.

(** X8.  The handler drops rejected entries without a trace: putting text
    that holds no number (one malformed token or several) between two
    parts of the width text, before it or after it leaves the outcome of
    the run unchanged. *)
Theorem X8_rejected_entries_are_ignored (a junk b : string) :
  fst (safe_float_list junk) = [] ->
  run_full_design lm gen (with_B_text sb (a ++ String comma (junk ++ String comma b)))
  = run_full_design lm gen (with_B_text sb (a ++ String comma b))
  /\ run_full_design lm gen (with_B_text sb (junk ++ String comma b))
     = run_full_design lm gen (with_B_text sb b)
  /\ run_full_design lm gen (with_B_text sb (a ++ String comma junk))
     = run_full_design lm gen (with_B_text sb a).
Proof.
  intros Hj.
  split; [ | split]; apply run_full_design_numbers;
    rewrite ?safe_float_list_app; cbn [fst]; rewrite ?safe_float_list_app;
    cbn [fst]; rewrite Hj; now rewrite ?app_nil_r.
Qed.

End Handler.

Lemma X7_spaces_and_commas :
  is_blank (Sidebar.B_text (sliding_case " , ,," 50)) = true
  /\ run_full_design libm_failing mersenne_twister (sliding_case " , ,," 50) = InvalidBList.
Proof.
  split; [reflexivity | ].
  exact (X7_blank_text_is_invalid libm_failing mersenne_twister (sliding_case " , ,," 50)
           eq_refl).
Defined.

Lemma X8_malformed_entries_between_widths :
  let sb := sliding_case "" 50 in
  fst (safe_float_list "abc, 1.5m,") = []
  /\ run_full_design libm_failing mersenne_twister
       (with_B_text sb ("1.5" ++ String comma ("abc, 1.5m," ++ String comma "2.0")))
     = run_full_design libm_failing mersenne_twister
         (with_B_text sb ("1.5" ++ String comma "2.0")).
Proof.
  intros sb.
  assert (Hj : fst (safe_float_list "abc, 1.5m,") = []) by (vm_compute; reflexivity).
  split; [exact Hj | ].
  exact (proj1 (X8_rejected_entries_are_ignored libm_failing mersenne_twister sb
                  "1.5" "abc, 1.5m," "2.0" Hj)).
Defined.

(* ------------------------------------------------------------------ *)
(** ** More on the trial evaluator and the reliability loop             *)
(* ------------------------------------------------------------------ *)

Lemma percent_half (n : Z) : 1 <= n -> percent_of n (2 * n) = 50%float.
Proof.
  intros Hn. unfold percent_of, round_ratio.
  destruct (Z.eqb_spec n 0) as [H0 | _]; [lia | ].
  rewrite Z.log2_double by lia.
  replace (64 + Z.succ (Z.log2 n) - Z.log2 n) with 65 by lia.
  change (Z.max 0 65) with 65.
  replace (n * 2 ^ 65) with (2 ^ 64 * (2 * n)) by (change (2 ^ 65) with (2 ^ 64 * 2); ring).
  rewrite Z.div_mul, Z.mod_mul by lia.
  vm_compute. reflexivity.
Qed.

Lemma div_nan_r (x : float) : (x / nan)%float = nan.
Proof.
  apply Prim2SF_inj. rewrite div_spec.
  change (Prim2SF nan) with S754_nan.
  destruct (Prim2SF x) as [s | s | | s m e]; reflexivity.
Qed.

Lemma truediv_nan (x : num) (r : num) :
  truediv x (Flt nan) = Ok r -> r = Flt nan.
Proof.
  destruct x as [z | f]; cbn [truediv to_float bind].
  - destruct (int_to_float z) as [f | e]; cbn [bind]; [ | discriminate].
    change (PrimFloat.eqb nan PrimFloat.zero) with false. cbv iota.
    intros Hr. inversion Hr. now rewrite div_nan_r.
  - change (PrimFloat.eqb nan PrimFloat.zero) with false. cbv iota.
    intros Hr. inversion Hr. now rewrite div_nan_r.
Qed.

Section MoreLoopFacts.

Variable lm : libm.
Variable gen : generator.
Variable sb : Sidebar.t.

Local Abbreviation n_iter := (Z.to_nat (Sidebar.iterations sb)).

Lemma widths_loop_app (ws1 ws2 : list num) (acc : list (num * num)) (g : rng gen) :
  widths_loop lm gen sb (ws1 ++ ws2) acc g
  = (r <- widths_loop lm gen sb ws1 acc g ;;
     widths_loop lm gen sb ws2 (fst r) (snd r)).
Proof.
  revert acc g. induction ws1 as [| B rest IH]; intros acc g.
  - reflexivity.
  - cbn [app widths_loop].
    destruct (trials lm gen sb n_iter B 0 g) as [[cnt g1] | e]; cbn [bind]; [ | reflexivity].
    destruct (safety_percent sb cnt) as [pct | e]; cbn [bind]; [ | reflexivity].
    apply IH.
Qed.

(** X9.  The study of a list [ws1 ++ ws2] is the study of [ws1] continued
    on [ws2] with the results and the generator state it left.  So widths
    added at the end of the list never change the results of the widths
    before them, and a run that raises on [ws1] raises the same on the
    longer list. *)
Theorem X9_appended_widths_keep_earlier_results (ws1 ws2 : list num) (g : rng gen) :
  widths_loop lm gen sb (ws1 ++ ws2) [] g
  = (r <- widths_loop lm gen sb ws1 [] g ;; widths_loop lm gen sb ws2 (fst r) (snd r))
  /\ (forall rs, results_of gen (widths_loop lm gen sb (ws1 ++ ws2) [] g) = Ok rs ->
       exists rs1 rs2,
         results_of gen (widths_loop lm gen sb ws1 [] g) = Ok rs1
         /\ rs = rs1 ++ rs2
         /\ List.length rs1 = List.length ws1 /\ List.length rs2 = List.length ws2)
  /\ (forall e, results_of gen (widths_loop lm gen sb ws1 [] g) = Raise e ->
       results_of gen (widths_loop lm gen sb (ws1 ++ ws2) [] g) = Raise e).
Proof.
  split; [apply widths_loop_app | ].
  rewrite widths_loop_app.
  destruct (widths_loop lm gen sb ws1 [] g) as [[rs1 g1] | e1] eqn:H1; cbn [bind fst snd].
  - split; [ | discriminate].
    intros rs Hrs. apply results_of_ok in Hrs. destruct Hrs as [g2 H2].
    apply widths_loop_ok in H1. destruct H1 as [_ [r1 [Hr1 [Hl1 _]]]].
    apply widths_loop_ok in H2. destruct H2 as [_ [r2 [Hr2 [Hl2 _]]]].
    cbn [app] in Hr1. subst r1.
    exists rs1, r2. repeat split; assumption.
  - split; [discriminate | ].
    intros e He. cbn in He. inversion He; subst. reflexivity.
Qed.

(** X10.  With no horizontal load and no overturning moment ([H != 0] and
    [M != 0] both false) the sliding and overturning checks of a trial
    pass for every float width and load, and the trial is decided by
    bearing and settlement alone. *)
Theorem X10_zero_demand_trial (B p : float) (gamma_r Es_r : num) :
  ne (Sidebar.H sb) (Int 0) = false ->
  ne (Sidebar.M sb) (Int 0) = false ->
  sliding_ok sb (Flt p) = Ok true
  /\ overturning_ok sb (Flt B) (Flt p) = Ok true
  /\ trial_passes lm sb (Flt B) gamma_r Es_r (Flt p)
     = (b1 <- bearing_ok lm sb (Flt B) gamma_r (Flt p) ;;
        b4 <- settlement_ok lm sb (Flt B) Es_r (Flt p) ;;
        Ok (b1 && b4)).
Proof.
  intros HH HM.
  assert (Hs : sliding_fs (Flt p) (Sidebar.H sb) (Sidebar.mu sb) = Ok (Int 999)).
  { unfold sliding_fs. now rewrite HH. }
  assert (Ho : overturning_fs (Flt p) (Flt B) (Sidebar.M sb) = Ok (Int 999)).
  { unfold overturning_fs.
    change (truediv (Flt B) (Int 2)) with (Ok (Flt (B / 2)%float)).
    cbn [bind mul float_binop to_float]. now rewrite HM. }
  unfold sliding_ok, overturning_ok, trial_passes, bearing_ok, settlement_ok.
  rewrite Hs, Ho. cbn [bind].
  change (ge (Int 999) FS_slide_req) with true.
  change (ge (Int 999) FS_ot_req) with true.
  repeat split.
  destruct (bearing_capacity_q_ult lm (Sidebar.c sb) gamma_r (Sidebar.Df sb) (Flt B)
              (Sidebar.phi sb)) as [q_ult | e]; cbn [bind]; [ | reflexivity].
  destruct (truediv q_ult (Sidebar.FS_bearing sb)) as [q_allow | e]; cbn [bind];
    [ | reflexivity].
  destruct (mul (Flt B) (Sidebar.L sb)) as [A | e]; cbn [bind]; [ | reflexivity].
  destruct (truediv (Flt p) A) as [q_apply | e]; cbn [bind]; [ | reflexivity].
  destruct (settlement_elastic lm (Flt p) (Flt B) (Sidebar.L sb) Es_r (Sidebar.nu sb)
              (Sidebar.I sb)) as [s0 | e]; cbn [bind]; [ | reflexivity].
  destruct (mul s0 (Int 1000)) as [s | e]; cbn [bind]; [ | reflexivity].
  now rewrite !andb_true_r.
Qed.

(** X11.  The percentage of line 281 has no rounding error at the ends and
    in the middle: for every [iterations >= 1], a count equal to
    [iterations] gives exactly [100.0], a count of zero exactly [0.0], and
    a count of half an even [iterations] exactly [50.0]. *)
Theorem X11_exact_percentages :
  1 <= Sidebar.iterations sb ->
  safety_percent sb (Sidebar.iterations sb) = Ok (Flt 100)
  /\ safety_percent sb 0 = Ok (Flt 0)
  /\ (forall k, Sidebar.iterations sb = 2 * k -> safety_percent sb k = Ok (Flt 50)).
Proof.
  intros Hi. split; [ | split].
  - rewrite safety_percent_ok by lia. now rewrite percent_full.
  - rewrite safety_percent_ok by lia. now rewrite percent_none.
  - intros k Hk. rewrite safety_percent_ok by lia. rewrite Hk.
    rewrite percent_half by lia. reflexivity.
Qed.

Lemma pass_count_all (n : nat) (B : num) (g : rng gen) :
  pass_count lm gen sb n B g = Z.of_nat n
  <-> forall j, (j < n)%nat -> passes_at lm gen sb B (advance gen (3 * j) g) = true.
Proof.
  split.
  - revert g. induction n as [| n IH]; intros g Hc j Hj; [lia | ].
    rewrite pass_count_S in Hc.
    pose proof (pass_count_bounds lm gen sb n B (advance gen 3 g)) as Hb.
    destruct (passes_at lm gen sb B g) eqn:Hp; [ | lia].
    destruct j as [| j]; [exact Hp | ].
    replace (3 * S j)%nat with (3 + 3 * j)%nat by lia. rewrite advance_add.
    apply IH; lia.
  - intros Hall. now rewrite (pass_count_constant lm gen sb n B g true Hall).
Qed.

Lemma pass_count_none (n : nat) (B : num) (g : rng gen) :
  pass_count lm gen sb n B g = 0
  <-> forall j, (j < n)%nat -> passes_at lm gen sb B (advance gen (3 * j) g) = false.
Proof.
  split.
  - revert g. induction n as [| n IH]; intros g Hc j Hj; [lia | ].
    rewrite pass_count_S in Hc.
    pose proof (pass_count_bounds lm gen sb n B (advance gen 3 g)) as Hb.
    destruct (passes_at lm gen sb B g) eqn:Hp; [lia | ].
    destruct j as [| j]; [exact Hp | ].
    replace (3 * S j)%nat with (3 + 3 * j)%nat by lia. rewrite advance_add.
    apply IH; lia.
  - intros Hall. now rewrite (pass_count_constant lm gen sb n B g false Hall).
Qed.

(** X12.  When the inner loop completes [n] rounds, the counter has grown
    by at least zero and at most [n]; it has grown by [n] exactly when
    every trial passed, and not at all exactly when no trial passed. *)
Theorem X12_counter_stays_in_range
  (n : nat) (B : num) (safe_count cnt : Z) (g g' : rng gen) :
  trials lm gen sb n B safe_count g = Ok (cnt, g') ->
  safe_count <= cnt <= safe_count + Z.of_nat n
  /\ (cnt = safe_count + Z.of_nat n <->
      forall j, (j < n)%nat -> passes_at lm gen sb B (advance gen (3 * j) g) = true)
  /\ (cnt = safe_count <->
      forall j, (j < n)%nat -> passes_at lm gen sb B (advance gen (3 * j) g) = false).
Proof.
  intros Ht. pose proof (trials_spec lm gen sb n B safe_count g) as Hs.
  rewrite Ht in Hs. destruct Hs as [Hc _].
  pose proof (pass_count_bounds lm gen sb n B g) as Hb.
  split; [lia | split].
  - rewrite <- pass_count_all. lia.
  - rewrite <- pass_count_none. lia.
Qed.

(** X13.  A NaN modulus never marks a trial safe: the settlement is NaN,
    [s <= settle_limit] is false, and the trial either fails or raises. *)
Theorem X13_nan_modulus_never_safe (B gamma_r P_r : num) :
  trial_passes lm sb B gamma_r (Flt nan) P_r = Ok false
  \/ exists e, trial_passes lm sb B gamma_r (Flt nan) P_r = Raise e.
Proof.
  unfold trial_passes.
  destruct (bearing_capacity_q_ult lm (Sidebar.c sb) gamma_r (Sidebar.Df sb) B (Sidebar.phi sb))
    as [q_ult | e]; cbn [bind]; [ | right; eauto].
  destruct (truediv q_ult (Sidebar.FS_bearing sb)) as [q_allow | e]; cbn [bind];
    [ | right; eauto].
  destruct (mul B (Sidebar.L sb)) as [A | e]; cbn [bind]; [ | right; eauto].
  destruct (truediv P_r A) as [q_apply | e]; cbn [bind]; [ | right; eauto].
  destruct (sliding_fs P_r (Sidebar.H sb) (Sidebar.mu sb)) as [FSs | e]; cbn [bind];
    [ | right; eauto].
  destruct (overturning_fs P_r B (Sidebar.M sb)) as [FSo | e]; cbn [bind];
    [ | right; eauto].
  destruct (settlement_elastic lm P_r B (Sidebar.L sb) (Flt nan) (Sidebar.nu sb) (Sidebar.I sb))
    as [s0 | e] eqn:Hs; cbn [bind]; [ | right; eauto].
  assert (H0 : s0 = Flt nan).
  { unfold settlement_elastic in Hs.
    repeat match type of Hs with
           | bind ?r _ = Ok _ =>
               let x := fresh "x" in
               destruct r as [x | ?]; cbn [bind] in Hs; [ | discriminate]
           end.
    now apply truediv_nan in Hs. }
  subst s0.
  change (mul (Flt nan) (Int 1000)) with (Ok (Flt nan)). cbn [bind].
  change (le (Flt nan) settle_limit) with false.
  left. now rewrite andb_false_r.
Qed.

End MoreLoopFacts.

Lemma X10_vertical_load_only :
  let sb := vertical_only_case "" 50 in
  ne (Sidebar.H sb) (Int 0) = false
  /\ ne (Sidebar.M sb) (Int 0) = false
  /\ sliding_ok sb (Flt 500) = Ok true
  /\ overturning_ok sb (Flt 2) (Flt 500) = Ok true
  /\ trial_passes libm_failing sb (Flt 2) (Flt 18) (Flt 30000) (Flt 500)
     = (b1 <- bearing_ok libm_failing sb (Flt 2) (Flt 18) (Flt 500) ;;
        b4 <- settlement_ok libm_failing sb (Flt 2) (Flt 30000) (Flt 500) ;;
        Ok (b1 && b4)).
Proof.
  intros sb.
  split; [reflexivity | ]. split; [reflexivity | ].
  exact (X10_zero_demand_trial libm_failing sb 2 500 (Flt 18) (Flt 30000) eq_refl eq_refl).
Defined.

Lemma X11_fifty_iterations :
  let sb := sliding_case "" 50 in
  1 <= Sidebar.iterations sb
  /\ safety_percent sb 50 = Ok (Flt 100)
  /\ safety_percent sb 0 = Ok (Flt 0)
  /\ (forall k, Sidebar.iterations sb = 2 * k -> safety_percent sb k = Ok (Flt 50)).
Proof.
  intros sb.
  assert (Hi : 1 <= Sidebar.iterations sb) by (apply Z.leb_le; reflexivity).
  split; [exact Hi | ].
  exact (X11_exact_percentages sb Hi).
Defined.

Lemma X12_two_trials_one_pass :
  let sb := sliding_case "" 2 in
  let g := MT19937.Random 42 in
  trials libm_failing mersenne_twister sb 2 (Flt 1.5) 0 g
  = Ok (1, advance mersenne_twister 6 g)
  /\ 0 <= 1 <= 0 + Z.of_nat 2
  /\ (1 = 0 + Z.of_nat 2 <->
      forall j, (j < 2)%nat ->
        passes_at libm_failing mersenne_twister sb (Flt 1.5)
          (advance mersenne_twister (3 * j) g) = true)
  /\ (1 = 0 <->
      forall j, (j < 2)%nat ->
        passes_at libm_failing mersenne_twister sb (Flt 1.5)
          (advance mersenne_twister (3 * j) g) = false).
Proof.
  intros sb g.
  assert (Ht : trials libm_failing mersenne_twister sb 2 (Flt 1.5) 0 g
               = Ok (1, advance mersenne_twister 6 g)) by (vm_compute; reflexivity).
  split; [exact Ht | ].
  exact (X12_counter_stays_in_range libm_failing mersenne_twister sb 2 (Flt 1.5) 0 1 g
           (advance mersenne_twister 6 g) Ht).
Defined.
